(** * go-nozzle: slow-consumer detection pipeline, consumer teardown and
      raw-consumer construction

    A shallow embedding of [consumer.go] and of the slow detector
    ([defaultSlowDetector], [isTruncated]) of package [nozzle].

    - Go values: an [error] interface value is an [option errval]
      ([None] is [nil]); a [*events.Envelope] is an [option Envelope]
      ([None] is the nil pointer).  The package never writes through an
      envelope pointer, so a pointer is represented by what it points to.
    - Goroutines: each relay goroutine of [DetectContext] is a small machine
      whose locations are the places where the goroutine can block (the
      [range] receive, the alert send, the [select], the send of
      [ctx.Err()]).  All channels are unbuffered, so every communication is a
      rendezvous with the environment; the environment's choices are the
      actions of the machine and a schedule is a list of them.
    - Contexts: a store of cancellation scopes, each live or done with its
      termination error; cancelling is a one-way transition. *)

From Stdlib Require Import ZArith Lia.
From stdpp Require Import base option list strings.

Local Open Scope string_scope.
Local Open Scope list_scope.

(** ** Go values *)

(** A Go evaluation either yields a value or panics. *)
Inductive result (A : Type) : Type :=
| Ok (a : A)
| Panic (msg : string).
Arguments Ok {A} a.
Arguments Panic {A} msg.

Definition bind {A B : Type} (r : result A) (k : A -> result B) : result B :=
  match r with
  | Ok a => k a
  | Panic m => Panic m
  end.

Notation "'let!' x ':=' r 'in' k" := (bind r (fun x => k))
  (at level 10, x name, r at level 100, k at level 200).

(** Go's short-circuit [&&]: the right operand is evaluated only when the
    left one is [true], so a panic on the right is reached only then. *)
Definition sc_and (a b : result bool) : result bool :=
  match a with
  | Ok true => b
  | Ok false => Ok false
  | Panic m => Panic m
  end.

Infix "&&&" := sc_and (at level 40, left associativity).

(** [websocket.CloseError]: the close code and the text of a close frame. *)
Record CloseError : Type := mkCloseError {
  Code : Z;
  Text : string
}.

(** The close code of RFC 6455, section 11.7 ([websocket.ClosePolicyViolation]). *)
Definition ClosePolicyViolation : Z := 1008%Z.

(** The dynamic values of the [error] interface that this package creates
    or tells apart: errors made by [fmt.Errorf], a [*websocket.CloseError]
    (a pointer to a close error, or the nil pointer of that type, which as
    an interface value is not [nil]), the two termination errors of package
    [context], and any other error, identified by its dynamic type and
    message. *)
Inductive errval : Type :=
| errorString (msg : string)
| websocket_CloseError (t : CloseError)
| websocket_CloseError_nil
| context_Canceled
| context_DeadlineExceeded
| otherError (dyntype msg : string).

(** An [error] interface value; [None] is [nil]. *)
Definition error : Type := option errval.

Definition fmt_Errorf (msg : string) : error := Some (errorString msg).

#[global] Instance CloseError_eq_dec : EqDecision CloseError.
Proof. solve_decision. Defined.

#[global] Instance errval_eq_dec : EqDecision errval.
Proof. solve_decision. Defined.

(** ** Envelopes (package [events] of sonde-go, generated from proto2)

    Every field of a proto2 message is a pointer and every getter is
    nil-safe: it returns the field's default when the receiver or the
    field is nil. *)

Definition Envelope_EventType : Type := Z.

Definition Envelope_HttpStartStop : Envelope_EventType := 4%Z.
Definition Envelope_LogMessage : Envelope_EventType := 5%Z.
Definition Envelope_ValueMetric : Envelope_EventType := 6%Z.
Definition Envelope_CounterEvent : Envelope_EventType := 7%Z.
Definition Envelope_Error : Envelope_EventType := 8%Z.
Definition Envelope_ContainerMetric : Envelope_EventType := 9%Z.

Record CounterEvent : Type := mkCounterEvent {
  Name : option string;
  Delta : option Z;
  Total : option Z
}.

Record ValueMetric : Type := mkValueMetric {
  vm_Name : option string;
  vm_Unit : option string
}.

Record Envelope : Type := mkEnvelope {
  Origin : option string;
  EventType : option Envelope_EventType;
  Timestamp : option Z;
  env_ValueMetric : option ValueMetric;
  env_CounterEvent : option CounterEvent
}.

#[global] Instance CounterEvent_eq_dec : EqDecision CounterEvent.
Proof. solve_decision. Defined.

#[global] Instance ValueMetric_eq_dec : EqDecision ValueMetric.
Proof. solve_decision. Defined.

#[global] Instance Envelope_eq_dec : EqDecision Envelope.
Proof. solve_decision. Defined.

(** [func (m *Envelope) GetEventType() Envelope_EventType]: the default of
    an enum field is its first declared value. *)
Definition GetEventType (m : option Envelope) : Envelope_EventType :=
  match m with
  | Some e =>
      match EventType e with
      | Some t => t
      | None => Envelope_HttpStartStop
      end
  | None => Envelope_HttpStartStop
  end.

(** [func (m *Envelope) GetOrigin() string] *)
Definition GetOrigin (m : option Envelope) : string :=
  match m with
  | Some e => default "" (Origin e)
  | None => ""
  end.

(** [func (m *CounterEvent) GetName() string] *)
Definition GetName (m : option CounterEvent) : string :=
  match m with
  | Some c => default "" (Name c)
  | None => ""
  end.

(** The message of the run-time panic of a field selection through a nil
    pointer. *)
Definition nil_dereference : string :=
  "invalid memory address or nil pointer dereference".

(** The field selection [envelope.CounterEvent]: unlike a getter it
    dereferences the pointer. *)
Definition field_CounterEvent (envelope : option Envelope)
  : result (option CounterEvent) :=
  match envelope with
  | Some e => Ok (env_CounterEvent e)
  | None => Panic nil_dereference
  end.

(** ** slow detector: classification *)

(** [isTruncated] (slow detector, lines 137-145). *)
Definition isTruncated (envelope : option Envelope) : result bool :=
  let! c := Ok (Z.eqb (GetEventType envelope) Envelope_CounterEvent)
             &&& (let! ce := field_CounterEvent envelope in
                  Ok (String.eqb (GetName ce) "TruncatingBuffer.DroppedMessages"))
             &&& Ok (String.eqb (GetOrigin envelope) "doppler") in
  if c then Ok true else Ok false.

(** The buffer-overflow signature, as a proposition. *)
Definition overflow_signature (envelope : option Envelope) : Prop :=
  GetEventType envelope = Envelope_CounterEvent /\
  GetName (envelope ≫= env_CounterEvent) = "TruncatingBuffer.DroppedMessages" /\
  GetOrigin envelope = "doppler".

(** The alert the event goroutine sends when [isTruncated(event)] holds
    (lines 61-64); [None] when the [if] is not taken. *)
Definition truncated_alert : error :=
  fmt_Errorf "doppler dropped messages from its queue because nozzle is slow".

Definition inspect_event (event : option Envelope) : result (option error) :=
  let! b := isTruncated event in
  Ok (if b then Some truncated_alert else None).

(** The alert the error goroutine sends (lines 84-99): the type switch has
    the single case [*websocket.CloseError] and no default, and the alert is
    sent only when the code is [websocket.ClosePolicyViolation].  The case
    is selected by the dynamic type alone, so that it is also taken for the
    nil pointer of that type, on which the field selection [t.Code] of
    line 86 panics. *)
Definition policy_alert : error :=
  fmt_Errorf
    "websocket terminates the connection because connection is too slow (ClosePolicyViolation)".

Definition inspect_error (err : error) : result (option error) :=
  match err with
  | Some (websocket_CloseError t) =>
      if Z.eqb (Code t) ClosePolicyViolation then Ok (Some policy_alert)
      else Ok None
  | Some websocket_CloseError_nil => Panic nil_dereference
  | _ => Ok None
  end.

(** The policy-violation signature, as a proposition. *)
Definition policy_violation_signature (err : error) : Prop :=
  exists t, err = Some (websocket_CloseError t) /\ Code t = ClosePolicyViolation.

(** ** Cancellation scopes (package [context])

    A store of contexts, addressed by position: [None] while the context is
    live, [Some e] once it is done, [e] being what [ctx.Err()] returns from
    then on. *)

Definition ctx_Err (st : list error) (ctx : nat) : error :=
  default None (st !! ctx).

(** [ctx.Done()] is closed exactly when [ctx.Err()] is not nil. *)
Definition ctx_Done (st : list error) (ctx : nat) : bool :=
  bool_decide (is_Some (ctx_Err st ctx)).

(** Cancelling sets the termination error of a live context; on a context
    that is already done (or does not exist) it does nothing. *)
Definition ctx_cancel (ctx : nat) (e : errval) (st : list error) : list error :=
  match st !! ctx with
  | Some None => <[ctx := Some e]> st
  | _ => st
  end.

(** [context.WithCancel(context.Background())]: a fresh live context; its
    [CancelFunc] is [ctx_cancel] at that position with [context.Canceled]. *)
Definition WithCancel (st : list error) : nat * list error :=
  (List.length st, st ++ [None]).

(** ** The relay goroutines of [DetectContext]

    Both goroutines have the same shape; they differ in the inspection of
    the item, in the line they log on cancellation and in the channel their
    deferred [close] closes. *)

Section RelayLoop.
Context {A : Type}.

(** Where a goroutine is blocked (or how it ended). *)
Inductive loc : Type :=
| AtRange                          (* [for x := range in] *)
| AtAlert (x : A) (alert : error)  (* [detectCh <- alert] *)
| AtSelect (x : A)                 (* [select { case out <- x: case <-ctx.Done(): }] *)
| AtCtxErr (e : error)             (* [errCh_ <- ctx.Err()] *)
| Returned                         (* returned; the deferred [close(out)] has run *)
| Panicked (msg : string).         (* panicked; the deferred [close(out)] has run *)

(** What a goroutine has done so far, oldest first. *)
Inductive obs : Type :=
| Received (x : A)       (* received [x] from the raw channel *)
| Alerted (alert : error) (* a reader took [alert] from [detectCh] *)
| Forwarded (x : A)      (* a reader took [x] from the output channel *)
| Logged (line : string) (* [sd.logger.Println(line)] *)
| CtxErrSent (e : error) (* a reader took [ctx.Err()] from [errCh_] *)
| OutputClosed.          (* the deferred [close] of the output channel *)

Record goroutine : Type := mkGoroutine {
  at_ : loc;
  hist : list obs
}.

(** The ways the environment (producer, readers, scheduler) lets a blocked
    goroutine go on. *)
Inductive action : Type :=
| Deliver (x : A)   (* the producer sends [x] on the raw channel *)
| InputClosed       (* the raw channel is closed: [range] ends *)
| AlertTaken        (* a reader receives from [detectCh] *)
| ItemTaken         (* a reader receives from the output channel *)
| DoneChosen        (* [select] takes [<-ctx.Done()] *)
| CtxErrTaken       (* a reader receives from [errCh_] *)
| SendOnClosed.     (* [errCh_] is closed: the pending send panics *)

Variable inspect : A -> result (option error).
Variable cancel_line : string.

Definition start : goroutine := mkGoroutine AtRange [].

Definition goto (g : goroutine) (l : loc) (o : list obs) : goroutine :=
  mkGoroutine l (hist g ++ o).

(** One step of a goroutine; [done] is [ctx.Err()] at the time of the
    step and [errCh_closed] tells whether [errCh_] has been closed by
    another goroutine. [None]: the action is not possible here.  A
    goroutine that panics runs its deferred [close] before the panic ends
    the process, like one that returns. *)
Definition gstep (done : error) (errCh_closed : bool)
    (g : goroutine) (a : action) : option goroutine :=
  match at_ g, a with
  | AtRange, Deliver x =>
      match inspect x with
      | Ok (Some alert) => Some (goto g (AtAlert x alert) [Received x])
      | Ok None => Some (goto g (AtSelect x) [Received x])
      | Panic m => Some (goto g (Panicked m) [Received x; OutputClosed])
      end
  | AtRange, InputClosed => Some (goto g Returned [OutputClosed])
  | AtAlert x alert, AlertTaken => Some (goto g (AtSelect x) [Alerted alert])
  | AtSelect x, ItemTaken => Some (goto g AtRange [Forwarded x])
  | AtSelect x, DoneChosen =>
      match done with
      | Some e => Some (goto g (AtCtxErr (Some e)) [Logged cancel_line])
      | None => None
      end
  | AtCtxErr e, CtxErrTaken =>
      if errCh_closed then None
      else Some (goto g Returned [CtxErrSent e; OutputClosed])
  | AtCtxErr e, SendOnClosed =>
      if errCh_closed
      then Some (goto g (Panicked "send on closed channel") [OutputClosed])
      else None
  | _, _ => None
  end.

Fixpoint grun (done : error) (errCh_closed : bool)
    (g : goroutine) (l : list action) : option goroutine :=
  match l with
  | [] => Some g
  | a :: l' => g' ← gstep done errCh_closed g a; grun done errCh_closed g' l'
  end.

(** Projections of the history. *)
Definition received (g : goroutine) : list A :=
  omap (fun o => match o with Received x => Some x | _ => None end) (hist g).

Definition forwarded (g : goroutine) : list A :=
  omap (fun o => match o with Forwarded x => Some x | _ => None end) (hist g).

Definition alerts (g : goroutine) : list error :=
  omap (fun o => match o with Alerted a => Some a | _ => None end) (hist g).

Definition ctx_errs (g : goroutine) : list error :=
  omap (fun o => match o with CtxErrSent e => Some e | _ => None end) (hist g).

(** The output channel is closed once the deferred [close] has run. *)
Definition output_closed (g : goroutine) : bool :=
  match at_ g with Returned | Panicked _ => true | _ => false end.

Definition panicked (g : goroutine) : bool :=
  match at_ g with Panicked _ => true | _ => false end.

(** The item the goroutine holds and has not forwarded yet, and the alert
    it is trying to send. *)
Definition in_flight (g : goroutine) : list A :=
  match at_ g with
  | AtAlert x _ | AtSelect x => [x]
  | _ => []
  end.

Definition alert_pending (g : goroutine) : list error :=
  match at_ g with
  | AtAlert _ alert => [alert]
  | _ => []
  end.

(** What an iteration of the loop on [x] adds to the history up to the
    [select], and what a full iteration adds. *)
Definition begun (x : A) : list obs :=
  Received x ::
  match inspect x with
  | Ok (Some alert) => [Alerted alert]
  | _ => []
  end.

Definition iteration (x : A) : list obs := begun x ++ [Forwarded x].

(** The alert the inspection of [x] asks for, if any. *)
Definition alert_of (x : A) : option error :=
  match inspect x with
  | Ok o => o
  | Panic _ => None
  end.

(** The actions of an environment that delivers [x] and whose readers take
    the alert (if any) and the item. *)
Definition serve (x : A) : list action :=
  Deliver x ::
  match inspect x with
  | Ok (Some _) => [AlertTaken]
  | _ => []
  end ++ [ItemTaken].

Definition serve_all (xs : list A) : list action :=
  flat_map serve xs ++ [InputClosed].

(** The invariant of a goroutine: its history is a sequence of completed
    iterations followed by a part that belongs to its location; [done] is
    [ctx.Err()]. *)
Inductive shape (done : error) : loc -> list obs -> Prop :=
| sh_range : shape done AtRange []
| sh_alert x a :
    inspect x = Ok (Some a) -> shape done (AtAlert x a) [Received x]
| sh_select x : shape done (AtSelect x) (begun x)
| sh_ctxerr x e :
    done = Some e ->
    shape done (AtCtxErr (Some e)) (begun x ++ [Logged cancel_line])
| sh_closed : shape done Returned [OutputClosed]
| sh_cancelled x e :
    done = Some e ->
    shape done Returned
      (begun x ++ [Logged cancel_line; CtxErrSent (Some e); OutputClosed])
| sh_panicked x e :
    done = Some e ->
    shape done (Panicked "send on closed channel")
      (begun x ++ [Logged cancel_line; OutputClosed])
| sh_inspect_panic x m :
    inspect x = Panic m ->
    shape done (Panicked m) [Received x; OutputClosed].

Definition inv (done : error) (g : goroutine) : Prop :=
  exists xs t, hist g = flat_map iteration xs ++ t /\ shape done (at_ g) t.
End RelayLoop.

Arguments loc A : clear implicits.
Arguments obs A : clear implicits.
Arguments goroutine A : clear implicits.
Arguments action A : clear implicits.
Arguments begun {A} inspect x : simpl never.
Arguments iteration {A} inspect x : simpl never.

(** ** The pipeline started by [DetectContext] *)

Definition event_cancel_line : string :=
  "[INFO] Canceled parent context: closing event channel".
Definition error_cancel_line : string :=
  "[INFO] Canceled parent context: closing error channel".

(** The two goroutines and the context they watch.  [eventCh_] is closed
    when the event goroutine has ended, [errCh_] when the error goroutine
    has; [detectCh] is never closed. *)
Record pipeline : Type := mkPipeline {
  p_ctx : nat;
  event_loop : goroutine (option Envelope);
  error_loop : goroutine error
}.

Definition new_pipeline (ctx : nat) : pipeline :=
  mkPipeline ctx start start.

(** A schedule is a list of these: an action of one goroutine, or the
    cancellation of a context with the given termination error.  Both
    goroutines send their alerts on the one channel [detectCh]; when both
    are blocked there, which of them a receive releases is left to the
    schedule ([OnEvents AlertTaken] or [OnErrors AlertTaken]).  The language
    does not fix that choice and the runtime serves blocked senders in
    order of arrival, so the runs of the program are among the runs
    considered here, and what holds of every run holds of the program. *)
Inductive sched : Type :=
| OnEvents (a : action (option Envelope))
| OnErrors (a : action error)
| CancelCtx (ctx : nat) (e : errval).

(** A panic in a goroutine ends the process. *)
Definition crashed (p : pipeline) : bool :=
  panicked (event_loop p) || panicked (error_loop p).

(** The event goroutine sends [ctx.Err()] on [errCh_], which the error
    goroutine may have closed; the error goroutine sends on its own
    channel, which is open as long as it runs. *)
Definition pstep (s : list error * pipeline) (a : sched)
  : option (list error * pipeline) :=
  let '(st, p) := s in
  if crashed p then None
  else
    match a with
    | OnEvents a =>
        g ← gstep inspect_event event_cancel_line (ctx_Err st (p_ctx p))
              (output_closed (error_loop p)) (event_loop p) a;
        Some (st, mkPipeline (p_ctx p) g (error_loop p))
    | OnErrors a =>
        g ← gstep inspect_error error_cancel_line (ctx_Err st (p_ctx p))
              false (error_loop p) a;
        Some (st, mkPipeline (p_ctx p) (event_loop p) g)
    | CancelCtx ctx e => Some (ctx_cancel ctx e st, p)
    end.

Fixpoint run (s : list error * pipeline) (l : list sched)
  : option (list error * pipeline) :=
  match l with
  | [] => Some s
  | a :: l' => s' ← pstep s a; run s' l'
  end.

(** What readers of the three output channels have received, per sender. *)
Definition eventCh_out (p : pipeline) : list (option Envelope) :=
  forwarded (event_loop p).

(** [errCh_] carries the relayed errors and the termination errors of both
    goroutines (in some interleaving of the three lists). *)
Definition errCh_relayed (p : pipeline) : list error :=
  forwarded (error_loop p).

Definition cancellation_errors (p : pipeline) : list error :=
  ctx_errs (event_loop p) ++ ctx_errs (error_loop p).

(** ** [defaultSlowDetector]

    [logger] is the list of lines printed so far: the package's
    constructors always install a logger. *)
Record defaultSlowDetector : Type := mkDetector {
  cancelFunc : option nat;
  logger : list string
}.

(** The detector together with the contexts and the pipelines it started.
    The channels [DetectContext] returns are identified with the position
    of the pipeline in [pipelines]. *)
Record world : Type := mkWorld {
  contexts : list error;
  detector : defaultSlowDetector;
  pipelines : list pipeline
}.

Definition Println (line : string) (w : world) : world :=
  mkWorld (contexts w)
          (mkDetector (cancelFunc (detector w)) (logger (detector w) ++ [line]))
          (pipelines w).

(** [DetectContext] (lines 41-115); [None] is the nil context. *)
Definition DetectContext (ctx : option nat) (w : world) : result (nat * world) :=
  match ctx with
  | None => Panic "nil context"
  | Some c =>
      let w1 := Println "[INFO] Start detecting slowConsumerAlert event" w in
      Ok (List.length (pipelines w1),
          mkWorld (contexts w1) (detector w1) (pipelines w1 ++ [new_pipeline c]))
  end.

(** [Detect] (lines 118-122). *)
Definition Detect (w : world) : result (nat * world) :=
  let '(ctx, st) := WithCancel (contexts w) in
  DetectContext (Some ctx)
    (mkWorld st (mkDetector (Some ctx) (logger (detector w))) (pipelines w)).

(** [Stop] (lines 124-133). *)
Definition Stop (w : world) : error * world :=
  let w1 := Println "[INFO] Stop detecting slowConsumerAlert event" w in
  match cancelFunc (detector w1) with
  | None => (fmt_Errorf "cancel function is not given", w1)
  | Some c =>
      (None,
       mkWorld (ctx_cancel c context_Canceled (contexts w1)) (detector w1)
               (pipelines w1))
  end.

(** A detector on which nothing has been called yet. *)
Definition new_world : world := mkWorld [] (mkDetector None []) [].

(** The state a pipeline of the world runs from. *)
Definition pipeline_state (w : world) (i : nat) : option (list error * pipeline) :=
  p ← pipelines w !! i; Some (contexts w, p).

(** ** [consumer.go] *)

(** Modelled from the spec: the declaration of [Config] is not among the
    source files.  The fields are the ones [newRawConsumer] reads; the spec
    lists them as the construction configuration (source address, access
    token, subscription identity, insecure transport, logger).  The debug
    printer and the logger are represented by a name and by the lines
    written. *)
Record Config : Type := mkConfig {
  DopplerAddr : string;
  Token : string;
  SubscriptionID : string;
  Insecure : bool;
  DebugPrinter : option string;
  Logger : list string
}.

(** [*noaa.Consumer], the connection of the external library: all this
    package does with it is to call [Close], whose answer is the library's. *)
Record noaa_Consumer : Type := mkNoaa {
  noaa_Close : error
}.

Record rawConsumer : Type := mkRawConsumer {
  connection : option noaa_Consumer;
  dopplerAddr : string;
  token : string;
  subscriptionID : string;
  insecure : bool;
  debugPrinter : option string;
  rc_logger : list string
}.

(** [rawConsumer.validate] (lines 127-141). *)
Definition validate (c : rawConsumer) : error :=
  if String.eqb (dopplerAddr c) "" then fmt_Errorf "DopplerAddr must not be empty"
  else if String.eqb (token c) "" then fmt_Errorf "Token must not be empty"
  else if String.eqb (subscriptionID c) "" then
    fmt_Errorf "SubscriptionID must not be empty"
  else None.

(** [newRawConsumer] (lines 144-159): the consumer ([None] is nil) and the
    error. *)
Definition newRawConsumer (config : Config) : option rawConsumer * error :=
  let c := mkRawConsumer None (DopplerAddr config) (Token config)
             (SubscriptionID config) (Insecure config) (DebugPrinter config)
             (Logger config) in
  match validate c with
  | Some err => (None, Some err)
  | None => (Some c, None)
  end.

(** [rawConsumer.Close] (lines 117-124).  The logger is taken to be
    non-nil: [newRawConsumer] copies [config.Logger] as it is, and on a nil
    logger the first statement of [Close] panics; a raw consumer without a
    logger is not represented. *)
Definition rawConsumer_Close (c : rawConsumer) : error * rawConsumer :=
  let c1 := mkRawConsumer (connection c) (dopplerAddr c) (token c)
              (subscriptionID c) (insecure c) (debugPrinter c)
              (rc_logger c ++ ["[INFO] Stop consuming firehose events"]) in
  match connection c1 with
  | None => (fmt_Errorf "no connection with firehose", c1)
  | Some conn => (noaa_Close conn, c1)
  end.

(** The two interfaces [consumer] is composed of, with the methods [Close]
    uses; an implementation answers with an error and its next state. *)
Class RawConsumer (R : Type) : Type := {
  RawConsumer_Close : R -> error * R
}.

Class SlowDetector (D : Type) : Type := {
  SlowDetector_Stop : D -> error * D
}.

#[global] Instance rawConsumer_RawConsumer : RawConsumer rawConsumer :=
  {| RawConsumer_Close := rawConsumer_Close |}.

#[global] Instance defaultSlowDetector_SlowDetector : SlowDetector world :=
  {| SlowDetector_Stop := Stop |}.

(** The method calls a function makes on its collaborators, in order. *)
Inductive call : Type :=
| Call_RawConsumer_Close
| Call_SlowDetector_Stop.

Section Consumer.
Context {R D : Type} `{RawConsumer R} `{SlowDetector D}.

(** [consumer] (lines 30-37); the three channels are those of the
    detector's pipeline. *)
Record consumer : Type := mkConsumer {
  c_rawConsumer : R;
  c_slowDetector : D
}.

(** [consumer.Close] (lines 55-61): the error returned, the consumer
    afterwards and the calls made. *)
Definition Close (c : consumer) : error * consumer * list call :=
  let '(err, r) := RawConsumer_Close (c_rawConsumer c) in
  match err with
  | Some e => (Some e, mkConsumer r (c_slowDetector c), [Call_RawConsumer_Close])
  | None =>
      let '(err', d) := SlowDetector_Stop (c_slowDetector c) in
      (err', mkConsumer r d, [Call_RawConsumer_Close; Call_SlowDetector_Stop])
  end.
End Consumer.

Arguments consumer R D : clear implicits.

(** ** Definitions used to state the properties *)

#[global] Instance overflow_signature_dec envelope : Decision (overflow_signature envelope).
Proof. unfold overflow_signature. apply _. Defined.

#[global] Instance policy_violation_signature_dec err : Decision (policy_violation_signature err).
Proof.
  destruct err as [[m|t| | | |ty m]|];
    try (right; intros (t' & Ht & _); discriminate).
  destruct (decide (Code t = ClosePolicyViolation)) as [Hc|Hc].
  - left. exists t. split; [reflexivity|exact Hc].
  - right. intros (t' & Ht & Hc'). inversion Ht; subst. contradiction.
Defined.

(** What the spec expects of one envelope (of one error): it is received,
    an alert is emitted exactly when it matches the signature, and it is
    forwarded. *)
Definition event_spec (envelope : option Envelope) : list (obs (option Envelope)) :=
  [Received envelope]
  ++ (if decide (overflow_signature envelope) then [Alerted truncated_alert] else [])
  ++ [Forwarded envelope].

Definition error_spec (err : error) : list (obs error) :=
  [Received err]
  ++ (if decide (policy_violation_signature err) then [Alerted policy_alert] else [])
  ++ [Forwarded err].

(** The invariant of a pipeline started on context [ctx]: both goroutines
    satisfy theirs, and the error goroutine, which sends on no channel that
    another goroutine closes, can only have panicked in its inspection. *)
Definition pinv (ctx : nat) (s : list error * pipeline) : Prop :=
  p_ctx s.2 = ctx /\
  inv inspect_event event_cancel_line (ctx_Err s.1 ctx) (event_loop s.2) /\
  inv inspect_error error_cancel_line (ctx_Err s.1 ctx) (error_loop s.2) /\
  (forall m, at_ (error_loop s.2) = Panicked m -> m = nil_dereference).

(** The schedule of an environment that delivers [evs] and [errs], never
    cancels, and whose readers take everything. *)
Definition cooperative (evs : list (option Envelope)) (errs : list error) : list sched :=
  map OnEvents (serve_all inspect_event evs) ++ map OnErrors (serve_all inspect_error errs).

(** [n] calls of [Stop] in a row: the errors returned and the final world. *)
Fixpoint repeat_Stop (n : nat) (w : world) : list error * world :=
  match n with
  | 0 => ([], w)
  | S n' =>
      let '(e, w1) := Stop w in
      let '(es, w2) := repeat_Stop n' w1 in
      (e :: es, w2)
  end.

(** How cancellation shows on a goroutine: it has sent no cancellation
    error, or it has sent exactly one, the termination error of its context,
    and has returned (its output channel is closed). *)
Definition cancel_outcome {A} (done : error) (g : goroutine A) : Prop :=
  ctx_errs g = [] \/
  (ctx_errs g = [done] /\ is_Some done /\ at_ g = Returned).

(** Fixtures: the counter event doppler emits when it drops messages, a
    value metric, a close error with the policy-violation code, one with
    the code of a normal closure, and the nil [*websocket.CloseError] as an
    [error]. *)
Definition dropped_messages : option Envelope :=
  Some (mkEnvelope (Some "doppler") (Some Envelope_CounterEvent) (Some 0%Z) None
          (Some (mkCounterEvent (Some "TruncatingBuffer.DroppedMessages")
                   (Some 1%Z) (Some 1%Z)))).

Definition cpu_metric : option Envelope :=
  Some (mkEnvelope (Some "cell") (Some Envelope_ValueMetric) (Some 1%Z)
          (Some (mkValueMetric (Some "cpu") (Some "percent"))) None).

Definition policy_close : error :=
  Some (websocket_CloseError (mkCloseError 1008%Z "too slow")).

Definition normal_close : error :=
  Some (websocket_CloseError (mkCloseError 1000%Z "bye")).

Definition nil_close : error := Some websocket_CloseError_nil.

(** The pipeline on context 0 whose event goroutine has received
    [dropped_messages] and is sending the alert. *)
Definition blocked_on_alert : pipeline :=
  mkPipeline 0
    (mkGoroutine (AtAlert dropped_messages truncated_alert)
       [Received dropped_messages])
    start.

(** The pipeline on context 0 whose goroutines both hold an item at their
    [select]. *)
Definition both_at_select : pipeline :=
  mkPipeline 0
    (mkGoroutine (AtSelect cpu_metric) [Received cpu_metric])
    (mkGoroutine (AtSelect normal_close) [Received normal_close]).

(** ** Definitions used to state further properties *)

(** The closes of its output channel a goroutine has executed, and the
    lines it has logged. *)
Definition closes {A : Type} (g : goroutine A) : list unit :=
  omap (fun o => match o with OutputClosed => Some () | _ => None end) (hist g).

Definition logged {A : Type} (g : goroutine A) : list string :=
  omap (fun o => match o with Logged line => Some line | _ => None end) (hist g).

(** The account of the items of a goroutine: what it received is what it
    forwarded followed by at most one more item.  Either the cancellation
    branch was never taken, and that item is the one in flight; or it was
    taken, once, on a context that is done, and that item is dropped. *)
Definition relay_account {A : Type} (cancel_line : string) (done : error)
    (g : goroutine A) : Prop :=
  exists rest,
    received g = forwarded g ++ rest /\
    List.length rest <= 1 /\
    ((logged g = [] /\ rest = in_flight g /\ ctx_errs g = []) \/
     (logged g = [cancel_line] /\ List.length rest = 1 /\ in_flight g = [] /\
      is_Some done)).

(** A goroutine closes its output channel when it ends, once, as the last
    thing it does. *)
Definition closes_last {A : Type} (g : goroutine A) : Prop :=
  closes g = (if output_closed g then [()] else []) /\
  (output_closed g = true -> last (hist g) = Some OutputClosed).

(** The schedule that brings both goroutines to their [select], cancels the
    context, lets the error goroutine leave by the cancellation branch and
    then lets the event goroutine take it too. *)
Definition panic_schedule : list sched :=
  [OnEvents (Deliver cpu_metric); OnErrors (Deliver normal_close);
   CancelCtx 0 context_Canceled;
   OnErrors DoneChosen; OnErrors CtxErrTaken;
   OnEvents DoneChosen; OnEvents SendOnClosed].

(** * Properties *)

(** ** Classification *)

Lemma isTruncated_true_iff envelope :
  isTruncated envelope = Ok true <-> overflow_signature envelope.
Proof.
  unfold isTruncated, overflow_signature.
  destruct envelope as [e|].
  - cbn [field_CounterEvent bind sc_and mbind option_bind].
    destruct (Z.eqb_spec (GetEventType (Some e)) Envelope_CounterEvent) as [Ht|Ht];
      [|split; [discriminate|intros [? _]; contradiction]].
    destruct (String.eqb_spec (GetName (env_CounterEvent e))
                "TruncatingBuffer.DroppedMessages") as [Hn|Hn];
      [|split; [discriminate|intros (_ & ? & _); contradiction]].
    destruct (String.eqb_spec (GetOrigin (Some e)) "doppler") as [Ho|Ho];
      [tauto|split; [discriminate|intros (_ & _ & ?); contradiction]].
  - split; [discriminate|]. intros [Ht _]. discriminate Ht.
Qed.

Lemma isTruncated_total envelope :
  isTruncated envelope = Ok (bool_decide (overflow_signature envelope)).
Proof.
  assert (Hb : exists b, isTruncated envelope = Ok b).
  { unfold isTruncated. destruct envelope as [e|]; simpl.
    - destruct (Z.eqb _ _); simpl; [|eauto].
      destruct (String.eqb _ _); simpl; [|eauto].
      destruct (String.eqb _ _); simpl; eauto.
    - eauto. }
  destruct Hb as [b Hb]. rewrite Hb. f_equal.
  destruct b.
  - symmetry. apply bool_decide_eq_true. by apply isTruncated_true_iff.
  - symmetry. apply bool_decide_eq_false. intros Hs.
    apply isTruncated_true_iff in Hs. congruence.
Qed.

Lemma inspect_event_spec envelope :
  inspect_event envelope =
  Ok (if decide (overflow_signature envelope) then Some truncated_alert else None).
Proof.
  unfold inspect_event. rewrite isTruncated_total. cbn [bind].
  case_bool_decide; case_decide; first [reflexivity|contradiction].
Qed.

Lemma inspect_error_spec err :
  err <> nil_close ->
  inspect_error err =
  Ok (if decide (policy_violation_signature err) then Some policy_alert else None).
Proof.
  intros Hnil.
  destruct (decide (policy_violation_signature err)) as [(t & -> & Hc)|Hn].
  - simpl. apply Z.eqb_eq in Hc. by rewrite Hc.
  - destruct err as [[m|t| | | |ty m]|]; simpl; try reflexivity.
    + destruct (Z.eqb_spec (Code t) ClosePolicyViolation) as [Hc|Hc]; [|reflexivity].
      exfalso. apply Hn. by exists t.
    + by destruct Hnil.
Qed.

Lemma inspect_error_panics err m :
  inspect_error err = Panic m <-> err = nil_close /\ m = nil_dereference.
Proof.
  split.
  - destruct err as [[m'|t| | | |ty m']|]; simpl; try discriminate.
    + by destruct (Z.eqb _ _).
    + by intros [= <-].
  - by intros [-> ->].
Qed.

Lemma nil_close_no_signature : ~ policy_violation_signature nil_close.
Proof. intros (t & Ht & _). discriminate Ht. Qed.
(** C9. Classifying an envelope never panics: [isTruncated] returns a
    boolean for every envelope pointer, the nil pointer included, and every
    malformed shape (nil envelope, missing event type, missing counter
    payload, missing counter name, missing origin) is classified as not
    anomalous. *)
Theorem isTruncated_never_panics (envelope : option Envelope) :
  (exists b, isTruncated envelope = Ok b) /\
  isTruncated None = Ok false /\
  (forall e, envelope = Some e ->
     EventType e = None \/ env_CounterEvent e = None \/
     (exists c, env_CounterEvent e = Some c /\ Name c = None) \/ Origin e = None ->
     isTruncated envelope = Ok false).
Proof.
  split; [rewrite isTruncated_total; eauto|].
  split; [reflexivity|].
  intros e -> Hmal. rewrite isTruncated_total. f_equal.
  apply bool_decide_eq_false. intros (Ht & Hn & Ho). simpl in *.
  destruct Hmal as [H|[H|[(c & H & Hc)|H]]]; rewrite H in *; simpl in *;
    try discriminate.
  rewrite Hc in Hn. discriminate.
Qed.

(** ** Cancellation scopes are one-way *)

Lemma ctx_cancel_mono ctx e st c :
  ctx_Err st c = None \/ ctx_Err (ctx_cancel ctx e st) c = ctx_Err st c.
Proof.
  unfold ctx_cancel. destruct (st !! ctx) as [[e0|]|] eqn:Hl; auto.
  destruct (decide (ctx = c)) as [->|Hne].
  - left. unfold ctx_Err. by rewrite Hl.
  - right. unfold ctx_Err. by rewrite list_lookup_insert_ne.
Qed.

Lemma ctx_cancel_done ctx e st c e0 :
  ctx_Err st c = Some e0 -> ctx_Err (ctx_cancel ctx e st) c = Some e0.
Proof.
  intros Hd. destruct (ctx_cancel_mono ctx e st c) as [Hn|Heq]; congruence.
Qed.

Lemma ctx_cancel_live ctx e st c :
  ctx_Err (ctx_cancel ctx e st) c = None -> ctx_Err st c = None.
Proof.
  intros Hn. destruct (ctx_cancel_mono ctx e st c) as [Hl|Heq]; congruence.
Qed.

Lemma ctx_cancel_cancels ctx e st :
  st !! ctx = Some None -> ctx_Err (ctx_cancel ctx e st) ctx = Some e.
Proof.
  intros Hl. unfold ctx_cancel, ctx_Err. rewrite Hl.
  rewrite list_lookup_insert_eq; [reflexivity|].
  by eapply lookup_lt_Some.
Qed.

Lemma ctx_cancel_idempotent ctx e e' st :
  ctx_cancel ctx e' (ctx_cancel ctx e st) = ctx_cancel ctx e st.
Proof.
  unfold ctx_cancel. destruct (st !! ctx) as [[e0|]|] eqn:Hl; rewrite ?Hl;
    try reflexivity.
  rewrite list_lookup_insert_eq; [reflexivity|]. by eapply lookup_lt_Some.
Qed.

(** ** One relay goroutine *)

Section RelayLoopFacts.
Context {A : Type}.
Variable inspect : A -> result (option error).
Variable cancel_line : string.

Local Abbreviation iter := (iteration inspect).
Local Abbreviation beg := (begun inspect).
Local Abbreviation step := (gstep inspect cancel_line).

Local Abbreviation shape := (shape inspect cancel_line).
Local Abbreviation inv := (inv inspect cancel_line).

Lemma inv_start done : inv done start.
Proof. exists [], []. split; [reflexivity|constructor]. Qed.

Lemma inv_mono done done' g :
  done = None \/ done' = done -> inv done g -> inv done' g.
Proof.
  intros Hd (xs & t & Hh & Hs). exists xs, t. split; [exact Hh|].
  destruct Hd as [->| ->]; [|exact Hs].
  inversion Hs; subst; try discriminate; by constructor.
Qed.

Lemma begun_alert x a : inspect x = Ok (Some a) -> beg x = [Received x; Alerted a].
Proof. intros Hi. unfold begun. by rewrite Hi. Qed.

Lemma begun_quiet x : inspect x = Ok None -> beg x = [Received x].
Proof. intros Hi. unfold begun. by rewrite Hi. Qed.

Lemma flat_map_snoc (xs : list A) x :
  flat_map iter (xs ++ [x]) = flat_map iter xs ++ beg x ++ [Forwarded x].
Proof. rewrite flat_map_app. cbn [flat_map]. by rewrite app_nil_r. Qed.

Local Opaque begun.

Lemma inv_step done closed g a g' :
  step done closed g a = Some g' -> inv done g -> inv done g'.
Proof.
  intros Hstep (xs & t & Hh & Hs). unfold gstep, goto in Hstep.
  destruct g as [l h]; cbn [at_ hist] in *; subst h.
  inversion Hs; subst; destruct a; try discriminate.
  - (* range, deliver *)
    destruct (inspect x) as [[al|]|m] eqn:Hi; injection Hstep as <-.
    + exists xs, [Received x]. split; [by rewrite app_nil_r|by constructor].
    + exists xs, (beg x). split; [|constructor].
      cbn [hist]. by rewrite app_nil_r, begun_quiet.
    + exists xs, [Received x; OutputClosed].
      split; [by rewrite app_nil_r|by constructor].
  - (* range, closed *)
    injection Hstep as <-. exists xs, [OutputClosed].
    split; [by rewrite app_nil_r|constructor].
  - (* alert taken *)
    injection Hstep as <-. exists xs, (beg x). split; [|constructor].
    cbn [hist]. rewrite (begun_alert x a0) by assumption.
    by rewrite <- app_assoc.
  - (* item taken *)
    injection Hstep as <-. exists (xs ++ [x]), []. split; [|constructor].
    cbn [hist]. by rewrite flat_map_snoc, app_nil_r, <- !app_assoc.
  - (* done chosen *)
    destruct done as [e|]; [|discriminate]. injection Hstep as <-.
    exists xs, (beg x ++ [Logged cancel_line]).
    split; [by rewrite <- app_assoc|by constructor].
  - (* ctx err taken *)
    destruct closed; [discriminate|]. injection Hstep as <-.
    exists xs, (beg x ++ [Logged cancel_line; CtxErrSent (Some e); OutputClosed]).
    split; [|by constructor].
    cbn [hist]. by rewrite <- !app_assoc.
  - (* send on closed *)
    destruct closed; [|discriminate]. injection Hstep as <-.
    exists xs, (beg x ++ [Logged cancel_line; OutputClosed]).
    split; [|by eapply sh_panicked].
    cbn [hist]. by rewrite <- !app_assoc.
Qed.

Local Transparent begun.

Lemma iterations_projections (xs : list A) :
  received (mkGoroutine AtRange (flat_map iter xs)) = xs /\
  forwarded (mkGoroutine AtRange (flat_map iter xs)) = xs /\
  ctx_errs (mkGoroutine AtRange (flat_map iter xs)) = [] /\
  alerts (mkGoroutine AtRange (flat_map iter xs)) = omap (alert_of inspect) xs.
Proof.
  unfold received, forwarded, ctx_errs, alerts. cbn [hist].
  induction xs as [|x xs (IH1 & IH2 & IH3 & IH4)]; [done|].
  cbn [flat_map]. rewrite !omap_app, IH1, IH2, IH3, IH4.
  unfold iteration, begun, alert_of.
  destruct (inspect x) as [[a|]|m] eqn:Hi; cbn; rewrite ?Hi; done.
Qed.

Lemma iterations_quiet (xs : list A) :
  closes (mkGoroutine AtRange (flat_map iter xs)) = [] /\
  logged (mkGoroutine AtRange (flat_map iter xs)) = [].
Proof.
  unfold closes, logged. cbn [hist].
  induction xs as [|x xs (IH1 & IH2)]; [done|].
  cbn [flat_map]. rewrite !omap_app, IH1, IH2.
  unfold iteration, begun.
  destruct (inspect x) as [[a|]|m]; cbn; done.
Qed.

(** The case analysis behind the facts below: the history is the completed
    iterations followed by the part that belongs to the location. *)
Ltac shape_cases :=
  let xs := fresh "xs" in let t := fresh "t" in
  let Hh := fresh "Hh" in let Hs := fresh "Hs" in
  let x := fresh "x" in let a := fresh "a" in let Hi := fresh "Hi" in
  let l := fresh "l" in let h := fresh "h" in
  intros (xs & t & Hh & Hs);
  match goal with g0 : goroutine _ |- _ => destruct g0 as [l h] end;
  cbn [hist at_] in Hh, Hs; subst h;
  destruct (iterations_projections xs) as (Hr & Hf & Hc & Ha);
  destruct (iterations_quiet xs) as (Hq & Hg);
  inversion Hs as [|x a Hi|x|x ? ?|  |x ? ?|x ? ?|x a Hi]; subst;
  try (first [ match goal with H : inspect x = _ |- _ => idtac end
             | destruct (inspect x) as [[a|]|a] eqn:Hi ]).

Ltac project :=
  unfold received, forwarded, ctx_errs, alerts, closes, logged, in_flight,
    alert_pending, panicked, output_closed, alert_of in *;
  cbn [hist at_] in *;
  rewrite ?omap_app;
  repeat match goal with H : omap _ (flat_map _ _) = _ |- _ => rewrite H end;
  unfold begun;
  repeat match goal with
         | H : inspect ?x = _ |- context [inspect ?x] => rewrite H
         end;
  cbn; rewrite ?omap_app, ?app_nil_r; cbn;
  repeat match goal with
         | H : inspect ?x = _ |- context [inspect ?x] => rewrite H
         end;
  cbn; rewrite ?app_nil_r.

Ltac by_shape := shape_cases; project.

Lemma inv_live g :
  inv None g ->
  ctx_errs g = [] /\
  (panicked g = false -> received g = forwarded g ++ in_flight g).
Proof. by_shape; done. Qed.

Lemma inv_running done g :
  (forall x, exists o, inspect x = Ok o) ->
  inv done g -> panicked g = true ->
  at_ g = Panicked "send on closed channel" /\ is_Some done.
Proof.
  intros Hok. shape_cases; cbn; try discriminate; eauto.
  all: destruct (Hok x) as [o Ho]; congruence.
Qed.

Lemma inv_prefix done g : inv done g -> forwarded g `prefix_of` received g.
Proof. by_shape; try apply prefix_app_r; reflexivity. Qed.

Lemma inv_alerts done g :
  inv done g -> alerts g ++ alert_pending g = omap (alert_of inspect) (received g).
Proof. by_shape; try done. Qed.

Lemma inv_idle done g :
  inv done g -> at_ g = AtRange -> hist g = flat_map iter (received g).
Proof. by_shape; try discriminate. reflexivity. Qed.

Lemma inv_closed done g :
  inv done g -> at_ g = Returned -> ctx_errs g = [] ->
  hist g = flat_map iter (received g) ++ [OutputClosed].
Proof. by_shape; try discriminate; intros _ ?; try discriminate; done. Qed.

Lemma inv_ctx_errs done g :
  inv done g ->
  ctx_errs g = [] \/ (ctx_errs g = [done] /\ is_Some done /\ at_ g = Returned).
Proof. by_shape; eauto. Qed.

Lemma inv_closes_last done g : inv done g -> closes_last g.
Proof.
  unfold closes_last. shape_cases; (split; [by project|]);
    cbn [output_closed at_]; try discriminate; intros _; cbn [hist];
    rewrite ?app_assoc;
    repeat match goal with
           | |- context [?l ++ [?a; ?b; ?c]] =>
               change [a; b; c] with ([a; b] ++ [c]); rewrite (app_assoc l)
           | |- context [?l ++ [?a; ?b]] =>
               change [a; b] with ([a] ++ [b]); rewrite (app_assoc l)
           end;
    by rewrite last_snoc.
Qed.

(** The account of the items, for a goroutine that did not panic in its
    inspection. *)
Lemma inv_relay_account done g :
  inv done g ->
  relay_account cancel_line done g \/
  exists x m,
    at_ g = Panicked m /\ inspect x = Panic m /\
    received g = forwarded g ++ [x] /\ logged g = [] /\ ctx_errs g = [].
Proof.
  unfold relay_account. shape_cases.
  all: try solve [left; exists []; project; split; [done|]; split; [lia|];
                  left; done].
  all: try solve [left; exists [x]; project; split; [done|]; split; [cbn; lia|];
                  first [left; done | right; repeat split; by eauto]].
  all: right; exists x, a; project; done.
Qed.

Lemma inv_panicked done g m :
  inv done g -> at_ g = Panicked m ->
  (exists x, inspect x = Panic m /\ received g = forwarded g ++ [x] /\
             logged g = [] /\ ctx_errs g = []) \/
  (m = "send on closed channel" /\ is_Some done /\ ctx_errs g = [] /\
   logged g = [cancel_line] /\ exists x, received g = forwarded g ++ [x]).
Proof.
  shape_cases; cbn [at_]; intros Hat; try discriminate;
    injection Hat as <-.
  all: try solve [right; project; repeat split; eauto].
  all: left; exists x; project; done.
Qed.

(** A goroutine whose error channel is open panics only in its
    inspection, and one whose inspection does not panic only by a send on
    the closed error channel. *)
Lemma gstep_panics done closed g a g' m :
  step done closed g a = Some g' -> at_ g' = Panicked m ->
  panicked g = false /\
  ((exists x, a = Deliver x /\ inspect x = Panic m) \/
   (closed = true /\ a = SendOnClosed /\ m = "send on closed channel")).
Proof.
  unfold gstep, goto. destruct g as [[] h], a; cbn; try discriminate;
    try (intros [= <-]; discriminate).
  - destruct (inspect x) as [[al|]|m'] eqn:Hi; intros [= <-]; cbn;
      try discriminate.
    intros [= ->]. eauto.
  - destruct done; [intros [= <-]; discriminate|discriminate].
  - destruct closed; [discriminate|intros [= <-]; discriminate].
  - destruct closed; [|discriminate]. intros [= <-]. cbn. intros [= <-]. eauto.
Qed.

Lemma gstep_running done closed g a g' :
  step done closed g a = Some g' -> panicked g = false.
Proof. unfold gstep. by destruct g as [[] h]. Qed.

Lemma grun_serve done closed h (xs : list A) l :
  Forall (fun x => exists o, inspect x = Ok o) xs ->
  grun inspect cancel_line done closed (mkGoroutine AtRange h)
    (flat_map (serve inspect) xs ++ l) =
  grun inspect cancel_line done closed
    (mkGoroutine AtRange (h ++ flat_map iter xs)) l.
Proof.
  intros Hok. revert h.
  induction Hok as [|x xs [o Hi] _ IH]; intros h; [by rewrite app_nil_r|].
  cbn [flat_map]. rewrite <- !app_assoc.
  unfold serve at 1, iteration at 1, begun.
  destruct o as [al|]; cbn; unfold gstep, goto; cbn;
    rewrite Hi; cbn; unfold goto; cbn [hist];
    rewrite IH, <- !app_assoc; reflexivity.
Qed.

Lemma grun_serve_all done closed (xs : list A) :
  Forall (fun x => exists o, inspect x = Ok o) xs ->
  grun inspect cancel_line done closed start (serve_all inspect xs) =
  Some (mkGoroutine Returned (flat_map iter xs ++ [OutputClosed])).
Proof. intros Hok. unfold serve_all, start. by rewrite grun_serve. Qed.
End RelayLoopFacts.
(** ** The pipeline *)

Lemma inspect_event_ok x : exists o, inspect_event x = Ok o.
Proof. rewrite inspect_event_spec. eauto. Qed.

Lemma inspect_error_ok x : x <> nil_close -> exists o, inspect_error x = Ok o.
Proof. intros Hx. rewrite inspect_error_spec by exact Hx. eauto. Qed.

Lemma events_ok (evs : list (option Envelope)) :
  Forall (fun x => exists o, inspect_event x = Ok o) evs.
Proof. apply Forall_forall. intros x _. apply inspect_event_ok. Qed.

Lemma errors_ok (errs : list error) :
  nil_close ∉ errs -> Forall (fun x => exists o, inspect_error x = Ok o) errs.
Proof.
  intros Hnil. apply Forall_forall. intros x Hx. apply inspect_error_ok.
  intros ->. contradiction.
Qed.

Lemma pinv_init st ctx : pinv ctx (st, new_pipeline ctx).
Proof.
  repeat split; cbn; try apply inv_start. discriminate.
Qed.

Lemma pinv_step ctx s a s' : pstep s a = Some s' -> pinv ctx s -> pinv ctx s'.
Proof.
  destruct s as [st p]. unfold pstep, pinv. cbn [fst snd].
  destruct (crashed p); [discriminate|].
  intros Hstep (Hc & Hev & Her & Hp). destruct a as [a|a|c e].
  - destruct (gstep _ _ _ _ (event_loop p) a) as [g|] eqn:Hg;
      cbn in Hstep; try discriminate.
    injection Hstep as <-. cbn. repeat split; try assumption.
    rewrite <- Hc in *. eapply inv_step; eauto.
  - destruct (gstep _ _ _ _ (error_loop p) a) as [g|] eqn:Hg;
      cbn in Hstep; try discriminate.
    injection Hstep as <-. cbn. repeat split; try assumption.
    + rewrite <- Hc in *. eapply inv_step; eauto.
    + intros m Hm.
      destruct (gstep_panics _ _ _ _ _ _ _ _ Hg Hm)
        as (_ & [(x & _ & Hx)|(? & _)]); [|discriminate].
      by apply inspect_error_panics in Hx as [_ ->].
  - injection Hstep as <-. cbn. repeat split; try assumption.
    + eapply inv_mono; [|exact Hev].
      destruct (ctx_cancel_mono c e st ctx); auto.
    + eapply inv_mono; [|exact Her].
      destruct (ctx_cancel_mono c e st ctx); auto.
Qed.

Lemma pinv_run ctx l : forall s s', run s l = Some s' -> pinv ctx s -> pinv ctx s'.
Proof.
  induction l as [|a l IH]; intros s s' Hrun Hinv; cbn in Hrun.
  - by injection Hrun as <-.
  - destruct (pstep s a) as [s1|] eqn:Hs; [|discriminate].
    eapply IH; [exact Hrun|]. by eapply pinv_step.
Qed.

Lemma run_reachable st ctx l s' :
  run (st, new_pipeline ctx) l = Some s' -> pinv ctx s'.
Proof. intros Hrun. eapply pinv_run; [exact Hrun|apply pinv_init]. Qed.

Lemma run_app l1 l2 : forall s, run s (l1 ++ l2) = (s' ← run s l1; run s' l2).
Proof.
  induction l1 as [|a l1 IH]; intros s; cbn; [reflexivity|].
  destruct (pstep s a) as [s1|]; cbn; [apply IH|reflexivity].
Qed.

(** How each goroutine can have panicked: the event goroutine by the send
    of the termination error on the closed error output, the error
    goroutine in the inspection of a nil [*websocket.CloseError]. *)
Lemma event_loop_panicked ctx s :
  pinv ctx s -> panicked (event_loop s.2) = true ->
  at_ (event_loop s.2) = Panicked "send on closed channel" /\
  is_Some (ctx_Err s.1 ctx).
Proof.
  intros (_ & Hev & _) Hp. eapply inv_running; eauto using inspect_event_ok.
Qed.

Lemma error_loop_panicked ctx s :
  pinv ctx s -> panicked (error_loop s.2) = true ->
  at_ (error_loop s.2) = Panicked nil_dereference /\
  received (error_loop s.2) = forwarded (error_loop s.2) ++ [nil_close] /\
  logged (error_loop s.2) = [] /\ ctx_errs (error_loop s.2) = [].
Proof.
  intros (_ & _ & Her & Hm) Hp.
  unfold panicked in Hp. destruct (at_ (error_loop s.2)) eqn:Hat; try done.
  pose proof (Hm _ eq_refl) as ->. split; [reflexivity|].
  destruct (inv_panicked _ _ _ _ _ Her Hat)
    as [(x & Hx & Hr & Hl & Hc)|(Hmsg & _)]; [|discriminate Hmsg].
  apply inspect_error_panics in Hx as [-> _]. done.
Qed.



(** Cancelling is one-way along a run as well. *)
Lemma pstep_live s a s' c :
  pstep s a = Some s' -> ctx_Err s'.1 c = None -> ctx_Err s.1 c = None.
Proof.
  destruct s as [st p]. unfold pstep.
  destruct (crashed p); [discriminate|].
  destruct a as [a|a|c' e].
  - destruct (gstep _ _ _ _ _ a); cbn; [|discriminate]. by intros [= <-].
  - destruct (gstep _ _ _ _ _ a); cbn; [|discriminate]. by intros [= <-].
  - intros [= <-]. cbn. apply ctx_cancel_live.
Qed.

Lemma run_live l : forall s s' c,
  run s l = Some s' -> ctx_Err s'.1 c = None -> ctx_Err s.1 c = None.
Proof.
  induction l as [|a l IH]; intros s s' c Hrun Hlive; cbn in Hrun.
  - by injection Hrun as <-.
  - destruct (pstep s a) as [s1|] eqn:Hs; [|discriminate].
    eapply pstep_live; [exact Hs|]. by eapply IH.
Qed.

Lemma run_events st l : forall p g,
  grun inspect_event event_cancel_line (ctx_Err st (p_ctx p))
    (output_closed (error_loop p)) (event_loop p) l = Some g ->
  panicked (error_loop p) = false ->
  run (st, p) (map OnEvents l) = Some (st, mkPipeline (p_ctx p) g (error_loop p)).
Proof.
  induction l as [|a l IH]; intros p g Hrun Hp; cbn in *.
  - injection Hrun as <-. by destruct p.
  - destruct (gstep _ _ _ _ (event_loop p) a) as [g1|] eqn:Hg;
      cbn in Hrun; try discriminate.
    unfold crashed. rewrite (gstep_running _ _ _ _ _ _ _ Hg), Hp. cbn.
    cbn in Hrun. by rewrite (IH (mkPipeline (p_ctx p) g1 (error_loop p)) g).
Qed.

Lemma run_errors st l : forall p g,
  grun inspect_error error_cancel_line (ctx_Err st (p_ctx p))
    false (error_loop p) l = Some g ->
  panicked (event_loop p) = false ->
  run (st, p) (map OnErrors l) = Some (st, mkPipeline (p_ctx p) (event_loop p) g).
Proof.
  induction l as [|a l IH]; intros p g Hrun Hp; cbn in *.
  - injection Hrun as <-. by destruct p.
  - destruct (gstep _ _ _ _ (error_loop p) a) as [g1|] eqn:Hg;
      cbn in Hrun; try discriminate.
    unfold crashed. rewrite (gstep_running _ _ _ _ _ _ _ Hg), Hp. cbn.
    cbn in Hrun. by rewrite (IH (mkPipeline (p_ctx p) (event_loop p) g1) g).
Qed.

(** With readers that take everything and no cancellation, both goroutines
    run to the end of their input, provided no error delivered is a nil
    [*websocket.CloseError]. *)
Lemma cooperative_run st ctx evs errs :
  nil_close ∉ errs ->
  run (st, new_pipeline ctx) (cooperative evs errs) =
  Some (st, mkPipeline ctx
              (mkGoroutine Returned
                 (flat_map (iteration inspect_event) evs ++ [OutputClosed]))
              (mkGoroutine Returned
                 (flat_map (iteration inspect_error) errs ++ [OutputClosed]))).
Proof.
  intros Hnil. unfold cooperative. rewrite run_app.
  erewrite run_events;
    [|apply grun_serve_all, events_ok|reflexivity].
  cbn [mbind option_bind].
  erewrite run_errors;
    [reflexivity|by apply grun_serve_all, errors_ok|reflexivity].
Qed.

Lemma event_iteration_spec envelope :
  iteration inspect_event envelope = event_spec envelope.
Proof.
  unfold iteration, begun, event_spec. rewrite inspect_event_spec.
  by destruct (decide (overflow_signature envelope)).
Qed.

Lemma error_iteration_spec err :
  iteration inspect_error err = error_spec err.
Proof.
  unfold iteration, begun, error_spec.
  destruct (decide (err = nil_close)) as [->|Hnil].
  - by destruct (decide (policy_violation_signature nil_close)) as [[]%nil_close_no_signature|].
  - rewrite inspect_error_spec by exact Hnil.
    by destruct (decide (policy_violation_signature err)).
Qed.

Lemma flat_map_ext_eq {A B} (f g : A -> list B) (l : list A) :
  (forall x, f x = g x) -> flat_map f l = flat_map g l.
Proof. intros Hfg. induction l as [|x l IH]; cbn; [done|]. by rewrite Hfg, IH. Qed.

Lemma omap_ext_eq {A B} (f g : A -> option B) (l : list A) :
  (forall x, f x = g x) -> omap f l = omap g l.
Proof. intros Hfg. induction l as [|x l IH]; cbn; [done|]. by rewrite Hfg, IH. Qed.

Lemma event_alert_of envelope :
  alert_of inspect_event envelope =
  if decide (overflow_signature envelope) then Some truncated_alert else None.
Proof. unfold alert_of. by rewrite inspect_event_spec. Qed.

Lemma error_alert_of err :
  alert_of inspect_error err =
  if decide (policy_violation_signature err) then Some policy_alert else None.
Proof.
  unfold alert_of.
  destruct (decide (err = nil_close)) as [->|Hnil].
  - by destruct (decide (policy_violation_signature nil_close)) as [[]%nil_close_no_signature|].
  - by rewrite inspect_error_spec.
Qed.

Lemma pstep_events st p a g :
  crashed p = false ->
  gstep inspect_event event_cancel_line (ctx_Err st (p_ctx p))
    (output_closed (error_loop p)) (event_loop p) a = Some g ->
  pstep (st, p) (OnEvents a) = Some (st, mkPipeline (p_ctx p) g (error_loop p)).
Proof. intros Hc Hg. unfold pstep. by rewrite Hc, Hg. Qed.

Lemma pstep_errors st p a g :
  crashed p = false ->
  gstep inspect_error error_cancel_line (ctx_Err st (p_ctx p))
    false (error_loop p) a = Some g ->
  pstep (st, p) (OnErrors a) = Some (st, mkPipeline (p_ctx p) (event_loop p) g).
Proof. intros Hc Hg. unfold pstep. by rewrite Hc, Hg. Qed.

Lemma ctx_errs_goto {A} (g : goroutine A) l o :
  ctx_errs (goto g l o) = ctx_errs g ++ ctx_errs (mkGoroutine l o).
Proof. unfold ctx_errs, goto. cbn [hist]. apply omap_app. Qed.

Lemma alerts_goto {A} (g : goroutine A) l o :
  alerts (goto g l o) = alerts g ++ alerts (mkGoroutine l o).
Proof. unfold alerts, goto. cbn [hist]. apply omap_app. Qed.

Lemma forwarded_goto {A} (g : goroutine A) l o :
  forwarded (goto g l o) = forwarded g ++ forwarded (mkGoroutine l o).
Proof. unfold forwarded, goto. cbn [hist]. apply omap_app. Qed.

Lemma inv_select_no_ctx_err {A} inspect line done (g : goroutine A) x :
  inv inspect line done g -> at_ g = AtSelect x -> ctx_errs g = [].
Proof.
  intros Hinv Hat.
  destruct (inv_ctx_errs _ _ _ _ Hinv) as [H|(_ & _ & Hr)]; [done|].
  congruence.
Qed.

Lemma inv_range_no_ctx_err {A} inspect line done (g : goroutine A) :
  inv inspect line done g -> at_ g = AtRange -> ctx_errs g = [].
Proof.
  intros Hinv Hat.
  destruct (inv_ctx_errs _ _ _ _ Hinv) as [H|(_ & _ & Hr)]; [done|].
  congruence.
Qed.

(** What the cancellation branch of the [select] does, for either loop. *)
Lemma cancel_branch {A} inspect line (g : goroutine A) x e :
  at_ g = AtSelect x ->
  exists g1 g2,
    gstep inspect line (Some e) false g DoneChosen = Some g1 /\
    (forall closed, gstep inspect line (Some e) closed g DoneChosen = Some g1) /\
    gstep inspect line (Some e) false g1 CtxErrTaken = Some g2 /\
    at_ g2 = Returned /\
    ctx_errs g2 = ctx_errs g ++ [Some e] /\
    forwarded g2 = forwarded g.
Proof.
  intros Hat. unfold gstep. rewrite Hat. do 2 eexists.
  split; [reflexivity|]. split; [reflexivity|]. cbn [at_ goto].
  split; [reflexivity|]. split; [reflexivity|].
  rewrite !ctx_errs_goto, !forwarded_goto. cbn.
  by rewrite !app_nil_r.
Qed.

(** ** The relay *)

(** C1, at the input on which the relay fails.  The nil
    [*websocket.CloseError], delivered as an [error] on the raw error
    channel, matches no anomaly signature; its inspection selects the case
    [*websocket.CloseError] of the type switch and panics in [t.Code]
    (line 86).  The error goroutine ends there: the error has been received
    and is not forwarded, no reader can take it from the error output, and
    an environment whose readers take everything does not get it. *)
Lemma nil_close_error_is_not_relayed :
  bool_decide (policy_violation_signature nil_close) = false /\
  inspect_error nil_close = Panic nil_dereference /\
  run ([None], new_pipeline 0) [OnErrors (Deliver nil_close)]
    = Some ([None],
            mkPipeline 0 start
              (mkGoroutine (Panicked nil_dereference)
                 [Received nil_close; OutputClosed])) /\
  received
    (mkGoroutine (Panicked nil_dereference) [Received nil_close; OutputClosed])
    = [nil_close] /\
  forwarded
    (mkGoroutine (Panicked nil_dereference) [Received nil_close; OutputClosed])
    = [] /\
  pstep ([None],
         mkPipeline 0 start
           (mkGoroutine (Panicked nil_dereference)
              [Received nil_close; OutputClosed]))
    (OnErrors ItemTaken) = None /\
  run ([None], new_pipeline 0) (cooperative [] [nil_close]) = None /\
  run ([None], new_pipeline 0) (cooperative [] [normal_close; nil_close; normal_close])
    = None.
Proof. repeat split; reflexivity. Qed.

(** ** The alerts *)

(** C2, counterexample.  The event goroutine receives the dropped-messages
    counter, which matches the signature, and a reader takes the alert; the
    context is cancelled while the goroutine holds the envelope at its
    [select], and the goroutine takes the cancellation branch: it returns
    having sent one alert and the termination error, and the envelope has
    not been forwarded. *)
Lemma matching_envelope_dropped_by_cancellation :
  bool_decide (overflow_signature dropped_messages) = true /\
  run ([None], new_pipeline 0)
      [OnEvents (Deliver dropped_messages); OnEvents AlertTaken;
       CancelCtx 0 context_Canceled;
       OnEvents DoneChosen; OnEvents CtxErrTaken]
    = Some ([Some context_Canceled],
            mkPipeline 0
              (mkGoroutine Returned
                 [Received dropped_messages; Alerted truncated_alert;
                  Logged event_cancel_line; CtxErrSent (Some context_Canceled);
                  OutputClosed])
              start) /\
  alerts
    (mkGoroutine Returned
       [Received dropped_messages; Alerted truncated_alert;
        Logged event_cancel_line; CtxErrSent (Some context_Canceled);
        OutputClosed])
    = [truncated_alert] /\
  forwarded
    (mkGoroutine Returned
       [Received dropped_messages; Alerted truncated_alert;
        Logged event_cancel_line; CtxErrSent (Some context_Canceled);
        OutputClosed])
    = [].
Proof. repeat split; reflexivity. Qed.

(** C2, amended.  [isTruncated] holds exactly for a CounterEvent named
    "TruncatingBuffer.DroppedMessages" of origin "doppler".  In every run
    the alerts of the event goroutine are, one for one and in order, the
    received envelopes that match (the last one possibly still pending);
    between two iterations its history is, for each envelope received: the
    receipt, one alert exactly when the envelope matches, and the forward
    of that envelope.  What the goroutine has received is what it has
    forwarded followed by at most one envelope: the one it holds, or, when
    it has taken the cancellation branch of its [select] (once, on a context
    that is done), the one it held there, which is dropped; as long as the
    context is live nothing is dropped.  And with readers that take
    everything and no cancellation every envelope delivered is received,
    alerted exactly when it matches, and forwarded. *)
Theorem overflow_alert_iff_signature (st : list error) (ctx : nat) :
  (forall envelope, isTruncated envelope = Ok true <-> overflow_signature envelope) /\
  (forall l st' p,
     run (st, new_pipeline ctx) l = Some (st', p) ->
     let g := event_loop p in
     alerts g ++ alert_pending g =
       omap (fun e => if decide (overflow_signature e)
                      then Some truncated_alert else None) (received g) /\
     (at_ g = AtRange -> hist g = flat_map event_spec (received g)) /\
     (at_ g = Returned -> ctx_errs g = [] ->
        hist g = flat_map event_spec (received g) ++ [OutputClosed]) /\
     relay_account event_cancel_line (ctx_Err st' ctx) g /\
     (ctx_Err st' ctx = None -> received g = forwarded g ++ in_flight g)) /\
  (forall evs, exists p,
     run (st, new_pipeline ctx) (cooperative evs []) = Some (st, p) /\
     hist (event_loop p) = flat_map event_spec evs ++ [OutputClosed]).
Proof.
  split; [apply isTruncated_true_iff|]. split.
  - intros l st' p Hrun g.
    pose proof (run_reachable _ _ _ _ Hrun) as Hinv.
    pose proof Hinv as (_ & Hev & _). cbn in Hev.
    fold g in Hev. split; [|split; [|split; [|split]]].
    + rewrite (inv_alerts _ _ _ _ Hev).
      apply omap_ext_eq, event_alert_of.
    + intros Hat. rewrite (inv_idle _ _ _ _ Hev Hat).
      apply flat_map_ext_eq, event_iteration_spec.
    + intros Hat Hce. rewrite (inv_closed _ _ _ _ Hev Hat Hce).
      f_equal. apply flat_map_ext_eq, event_iteration_spec.
    + destruct (inv_relay_account _ _ _ _ Hev)
        as [Hacc|(x & m & _ & Hx & _)]; [exact Hacc|].
      destruct (inspect_event_ok x). congruence.
    + intros Hlive. rewrite Hlive in Hev.
      apply inv_live in Hev as (_ & He).
      apply He. destruct (panicked g) eqn:Hp; [|reflexivity].
      destruct (event_loop_panicked _ _ Hinv Hp) as (_ & Hdone).
      cbn in Hdone. rewrite Hlive in Hdone. by destruct Hdone.
  - intros evs. eexists. split; [apply cooperative_run, not_elem_of_nil|].
    cbn [event_loop hist]. f_equal. apply flat_map_ext_eq, event_iteration_spec.
Qed.

(** C2, on the scenario of the spec: the dropped-messages counter followed
    by a value metric gives one alert and both envelopes, in order. *)
Lemma overflow_alert_iff_signature_witness :
  exists p,
    run ([None], new_pipeline 0)
        (cooperative [dropped_messages; cpu_metric] []) = Some ([None], p) /\
    alerts (event_loop p) = [truncated_alert] /\
    eventCh_out p = [dropped_messages; cpu_metric] /\
    hist (event_loop p) =
      [Received dropped_messages; Alerted truncated_alert;
       Forwarded dropped_messages; Received cpu_metric; Forwarded cpu_metric;
       OutputClosed].
Proof.
  destruct (proj2 (proj2 (overflow_alert_iff_signature [None] 0))
              [dropped_messages; cpu_metric]) as (p & Hrun & Hh).
  exists p. split; [exact Hrun|].
  unfold eventCh_out, alerts, forwarded. rewrite Hh.
  repeat split; reflexivity.
Defined.

(** C3, counterexample.  The error goroutine receives a close error with
    code 1008, which matches the signature, and a reader takes the alert;
    the context is cancelled while the goroutine holds the error at its
    [select], and the goroutine takes the cancellation branch: it returns
    having sent one alert and the termination error, and the close error
    has not been forwarded. *)
Lemma matching_error_dropped_by_cancellation :
  bool_decide (policy_violation_signature policy_close) = true /\
  run ([None], new_pipeline 0)
      [OnErrors (Deliver policy_close); OnErrors AlertTaken;
       CancelCtx 0 context_Canceled;
       OnErrors DoneChosen; OnErrors CtxErrTaken]
    = Some ([Some context_Canceled],
            mkPipeline 0 start
              (mkGoroutine Returned
                 [Received policy_close; Alerted policy_alert;
                  Logged error_cancel_line; CtxErrSent (Some context_Canceled);
                  OutputClosed])) /\
  alerts
    (mkGoroutine Returned
       [Received policy_close; Alerted policy_alert;
        Logged error_cancel_line; CtxErrSent (Some context_Canceled);
        OutputClosed])
    = [policy_alert] /\
  forwarded
    (mkGoroutine Returned
       [Received policy_close; Alerted policy_alert;
        Logged error_cancel_line; CtxErrSent (Some context_Canceled);
        OutputClosed])
    = [].
Proof. repeat split; reflexivity. Qed.

(** C3, amended.  The error goroutine asks for an alert exactly for a
    websocket close error whose code is 1008, and for no alert for every
    other error that is not the nil [*websocket.CloseError].  In every run
    its alerts are, one for one and in order, the received errors that
    match (the last one possibly still pending); between two iterations its
    history is, for each error received: the receipt, one alert exactly
    when the error matches, and the forward of that error.  As long as the
    goroutine has not panicked, what it has received is what it has
    forwarded followed by at most one error: the one it holds, or, when it
    has taken the cancellation branch of its [select] (once, on a context
    that is done), the one it held there, which is dropped; as long as the
    context is live nothing is dropped.  And with readers that take
    everything and no cancellation every error delivered, none of them the
    nil [*websocket.CloseError], is received, alerted exactly when it
    matches, and forwarded. *)
Theorem policy_alert_iff_close_1008 (st : list error) (ctx : nat) :
  (forall err,
     inspect_error err = Ok (Some policy_alert) <->
     exists t, err = Some (websocket_CloseError t) /\ Code t = 1008%Z) /\
  (forall err,
     err <> nil_close ->
     inspect_error err = Ok (Some policy_alert) \/ inspect_error err = Ok None) /\
  (forall l st' p,
     run (st, new_pipeline ctx) l = Some (st', p) ->
     let g := error_loop p in
     alerts g ++ alert_pending g =
       omap (fun e => if decide (policy_violation_signature e)
                      then Some policy_alert else None) (received g) /\
     (at_ g = AtRange -> hist g = flat_map error_spec (received g)) /\
     (at_ g = Returned -> ctx_errs g = [] ->
        hist g = flat_map error_spec (received g) ++ [OutputClosed]) /\
     (panicked g = false ->
        relay_account error_cancel_line (ctx_Err st' ctx) g /\
        (ctx_Err st' ctx = None -> received g = forwarded g ++ in_flight g))) /\
  (forall errs,
     nil_close ∉ errs ->
     exists p,
       run (st, new_pipeline ctx) (cooperative [] errs) = Some (st, p) /\
       hist (error_loop p) = flat_map error_spec errs ++ [OutputClosed]).
Proof.
  split.
  { intros err.
    change (exists t, err = Some (websocket_CloseError t) /\ Code t = 1008%Z)
      with (policy_violation_signature err).
    destruct (decide (err = nil_close)) as [->|Hnil].
    - split; [discriminate|]. by intros []%nil_close_no_signature.
    - rewrite inspect_error_spec by exact Hnil.
      destruct (decide (policy_violation_signature err)); split; try done. }
  split.
  { intros err Hnil. rewrite inspect_error_spec by exact Hnil.
    destruct (decide _); auto. }
  split.
  - intros l st' p Hrun g.
    destruct (run_reachable _ _ _ _ Hrun) as (_ & _ & Her & _). cbn in Her.
    fold g in Her. split; [|split; [|split]].
    + rewrite (inv_alerts _ _ _ _ Her).
      apply omap_ext_eq, error_alert_of.
    + intros Hat. rewrite (inv_idle _ _ _ _ Her Hat).
      apply flat_map_ext_eq, error_iteration_spec.
    + intros Hat Hce. rewrite (inv_closed _ _ _ _ Her Hat Hce).
      f_equal. apply flat_map_ext_eq, error_iteration_spec.
    + intros Hp. split.
      * destruct (inv_relay_account _ _ _ _ Her)
          as [Hacc|(x & m & Hat & _)]; [exact Hacc|].
        unfold panicked in Hp. by rewrite Hat in Hp.
      * intros Hlive. rewrite Hlive in Her.
        apply inv_live in Her as (_ & He). by apply He.
  - intros errs Hnil. eexists. split; [by apply cooperative_run|].
    cbn [error_loop hist]. f_equal. apply flat_map_ext_eq, error_iteration_spec.
Qed.

(** C3, on the scenario of the spec: a close error with code 1008 gives one
    alert and is relayed; a normal close is relayed without alert. *)
Lemma policy_alert_iff_close_1008_witness :
  exists p,
    run ([None], new_pipeline 0)
        (cooperative [] [policy_close; normal_close]) = Some ([None], p) /\
    alerts (error_loop p) = [policy_alert] /\
    errCh_relayed p = [policy_close; normal_close] /\
    hist (error_loop p) =
      [Received policy_close; Alerted policy_alert; Forwarded policy_close;
       Received normal_close; Forwarded normal_close; OutputClosed].
Proof.
  destruct (proj2 (proj2 (proj2 (policy_alert_iff_close_1008 [None] 0)))
              [policy_close; normal_close]) as (p & Hrun & Hh).
  { intros Hin. repeat (apply elem_of_cons in Hin as [Hin|Hin]; [discriminate|]).
    by apply elem_of_nil in Hin. }
  exists p. split; [exact Hrun|].
  unfold errCh_relayed, alerts, forwarded. rewrite Hh.
  repeat split; reflexivity.
Defined.

(** ** Cancellation *)

(** C4, counterexample.  The context is cancelled while both goroutines
    wait for input: neither can take the cancellation branch (the outputs
    stay open), and when the raw channels are closed afterwards both outputs
    close without any cancellation error having been sent. *)
Lemma cancel_while_waiting_sends_no_cancellation_error :
  run ([None], new_pipeline 0) [CancelCtx 0 context_Canceled]
    = Some ([Some context_Canceled], new_pipeline 0) /\
  pstep ([Some context_Canceled], new_pipeline 0) (OnEvents DoneChosen) = None /\
  pstep ([Some context_Canceled], new_pipeline 0) (OnErrors DoneChosen) = None /\
  output_closed (event_loop (new_pipeline 0)) = false /\
  output_closed (error_loop (new_pipeline 0)) = false /\
  run ([None], new_pipeline 0)
      [CancelCtx 0 context_Canceled; OnEvents InputClosed; OnErrors InputClosed]
    = Some ([Some context_Canceled],
            mkPipeline 0 (mkGoroutine Returned [OutputClosed])
                         (mkGoroutine Returned [OutputClosed])) /\
  cancellation_errors
    (mkPipeline 0 (mkGoroutine Returned [OutputClosed])
                  (mkGoroutine Returned [OutputClosed])) = [].
Proof. repeat split; reflexivity. Qed.

(** C4, amended.  A goroutine observes the cancellation only in the
    [select] that forwards the item it holds.  In every run each goroutine
    has sent at most one cancellation error, which is the termination error
    of the context, and it has returned once it has sent it; the cancellation
    branch can be taken only at the [select] and only once the context is
    done; and, in a process that has not panicked, a goroutine at its
    [select] on a cancelled context can take that branch: after that one
    pending send it has sent exactly one cancellation error, forwarded
    nothing more, and returned, its output closed (for the event goroutine:
    provided the error output is still open).  A goroutine that waits for
    input cannot take the cancellation branch, whether or not the context is
    done: all it can do is to receive an item or to see its raw channel
    closed, and when the raw channel is closed it returns, its output
    closed, without having sent a cancellation error. *)
Theorem cancellation_observed_at_select (st : list error) (ctx : nat) :
  forall l st' p,
    run (st, new_pipeline ctx) l = Some (st', p) ->
    cancel_outcome (ctx_Err st' ctx) (event_loop p) /\
    cancel_outcome (ctx_Err st' ctx) (error_loop p) /\
    (is_Some (pstep (st', p) (OnEvents DoneChosen)) ->
       is_Some (ctx_Err st' ctx) /\ exists x, at_ (event_loop p) = AtSelect x) /\
    (is_Some (pstep (st', p) (OnErrors DoneChosen)) ->
       is_Some (ctx_Err st' ctx) /\ exists x, at_ (error_loop p) = AtSelect x) /\
    (forall e x,
       ctx_Err st' ctx = Some e -> crashed p = false ->
       at_ (error_loop p) = AtSelect x ->
       exists p',
         run (st', p) [OnErrors DoneChosen; OnErrors CtxErrTaken] = Some (st', p') /\
         at_ (error_loop p') = Returned /\
         ctx_errs (error_loop p') = [Some e] /\
         errCh_relayed p' = errCh_relayed p) /\
    (forall e x,
       ctx_Err st' ctx = Some e -> crashed p = false ->
       at_ (event_loop p) = AtSelect x ->
       output_closed (error_loop p) = false ->
       exists p',
         run (st', p) [OnEvents DoneChosen; OnEvents CtxErrTaken] = Some (st', p') /\
         at_ (event_loop p') = Returned /\
         ctx_errs (event_loop p') = [Some e] /\
         eventCh_out p' = eventCh_out p) /\
    (at_ (event_loop p) = AtRange -> crashed p = false ->
       (forall a, is_Some (pstep (st', p) (OnEvents a)) <->
                  a = InputClosed \/ exists x, a = Deliver x) /\
       exists p',
         pstep (st', p) (OnEvents InputClosed) = Some (st', p') /\
         at_ (event_loop p') = Returned /\
         ctx_errs (event_loop p') = []) /\
    (at_ (error_loop p) = AtRange -> crashed p = false ->
       (forall a, is_Some (pstep (st', p) (OnErrors a)) <->
                  a = InputClosed \/ exists x, a = Deliver x) /\
       exists p',
         pstep (st', p) (OnErrors InputClosed) = Some (st', p') /\
         at_ (error_loop p') = Returned /\
         ctx_errs (error_loop p') = []).
Proof.
  intros l st' p Hrun.
  destruct (run_reachable _ _ _ _ Hrun) as (Hctx & Hev & Her & Hp).
  cbn [fst snd] in *.
  split; [|split; [|split; [|split; [|split; [|split; [|split]]]]]].
  - destruct (inv_ctx_errs _ _ _ _ Hev) as [H|(H1 & H2 & H3)];
      [by left|by right].
  - destruct (inv_ctx_errs _ _ _ _ Her) as [H|(H1 & H2 & H3)];
      [by left|by right].
  - unfold pstep. destruct (crashed p); [by intros [? [=]]|].
    unfold gstep. rewrite Hctx.
    destruct (at_ (event_loop p)); cbn; try by intros [? [=]].
    destruct (ctx_Err st' ctx); [eauto|by intros [? [=]]].
  - unfold pstep. destruct (crashed p); [by intros [? [=]]|].
    unfold gstep. rewrite Hctx.
    destruct (at_ (error_loop p)); cbn; try by intros [? [=]].
    destruct (ctx_Err st' ctx); [eauto|by intros [? [=]]].
  - intros e x Hdone Hcr Hat.
    destruct (cancel_branch inspect_error error_cancel_line _ x e Hat)
      as (g1 & g2 & Hs1 & _ & Hs2 & Hcl & Hce & Hfw).
    exists (mkPipeline ctx (event_loop p) g2).
    cbn [run]. erewrite pstep_errors; [|exact Hcr|by rewrite Hctx, Hdone].
    cbn [mbind option_bind]. erewrite pstep_errors;
      [|unfold crashed in *; cbn [event_loop error_loop];
        apply orb_false_iff in Hcr as [-> _]; cbn [orb];
        eapply gstep_running; exact Hs2
       |by cbn [p_ctx error_loop]; rewrite Hctx, Hdone].
    cbn [mbind option_bind p_ctx event_loop error_loop]. rewrite Hctx.
    split; [reflexivity|]. split; [exact Hcl|].
    rewrite Hce, (inv_select_no_ctx_err _ _ _ _ _ Her Hat).
    split; [reflexivity|exact Hfw].
  - intros e x Hdone Hcr Hat Hopen.
    destruct (cancel_branch inspect_event event_cancel_line _ x e Hat)
      as (g1 & g2 & Hs1 & _ & Hs2 & Hcl & Hce & Hfw).
    exists (mkPipeline ctx g2 (error_loop p)).
    cbn [run].
    erewrite pstep_events; [|exact Hcr|by rewrite Hctx, Hdone, Hopen].
    cbn [mbind option_bind]. erewrite pstep_events;
      [|unfold crashed in *; cbn [event_loop error_loop];
        apply orb_false_iff in Hcr as [_ ->]; rewrite orb_false_r;
        eapply gstep_running; exact Hs2
       |by cbn [p_ctx event_loop error_loop]; rewrite Hctx, Hdone, Hopen].
    cbn [mbind option_bind p_ctx event_loop error_loop]. rewrite Hctx.
    split; [reflexivity|]. split; [exact Hcl|].
    rewrite Hce, (inv_select_no_ctx_err _ _ _ _ _ Hev Hat).
    split; [reflexivity|exact Hfw].
  - intros Hat Hcr. split.
    + intros a. unfold pstep. rewrite Hcr. unfold gstep. rewrite Hat.
      destruct a as [x| | | | | |]; cbn; split; intros H;
        try (by destruct H as [? [=]]);
        try (by destruct H as [[=]|[? [=]]]);
        eauto.
      destruct (inspect_event_ok x) as [[al|] ->]; by eexists.
    + eexists. split; [apply pstep_events; [exact Hcr|]|].
      { unfold gstep. by rewrite Hat. }
      cbn [event_loop]. split; [reflexivity|].
      rewrite ctx_errs_goto, (inv_range_no_ctx_err _ _ _ _ Hev Hat). done.
  - intros Hat Hcr. split.
    + intros a. unfold pstep. rewrite Hcr. unfold gstep. rewrite Hat.
      destruct a as [x| | | | | |]; cbn; split; intros H;
        try (by destruct H as [? [=]]);
        try (by destruct H as [[=]|[? [=]]]);
        eauto.
      destruct (inspect_error x) as [[al|]|m]; by eexists.
    + eexists. split; [apply pstep_errors; [exact Hcr|]|].
      { unfold gstep. by rewrite Hat. }
      cbn [error_loop]. split; [reflexivity|].
      rewrite ctx_errs_goto, (inv_range_no_ctx_err _ _ _ _ Her Hat). done.
Qed.

(** C4, on a concrete run: both goroutines hold an item when the context is
    cancelled; the error goroutine takes the cancellation branch, sends
    [context.Canceled] once and closes the error output, and the item it
    held is not relayed. *)
Lemma cancellation_observed_at_select_witness :
  run ([None], new_pipeline 0)
      [OnEvents (Deliver cpu_metric); OnErrors (Deliver normal_close);
       CancelCtx 0 context_Canceled]
    = Some ([Some context_Canceled], both_at_select) /\
  exists p',
    run ([Some context_Canceled], both_at_select)
        [OnErrors DoneChosen; OnErrors CtxErrTaken]
      = Some ([Some context_Canceled], p') /\
    at_ (error_loop p') = Returned /\
    ctx_errs (error_loop p') = [Some context_Canceled] /\
    errCh_relayed p' = [].
Proof.
  split; [reflexivity|].
  destruct (cancellation_observed_at_select [None] 0
              [OnEvents (Deliver cpu_metric); OnErrors (Deliver normal_close);
               CancelCtx 0 context_Canceled]
              [Some context_Canceled] both_at_select eq_refl)
    as (_ & _ & _ & _ & Herr & _).
  destruct (Herr context_Canceled normal_close eq_refl eq_refl eq_refl)
    as (p' & Hrun & Hcl & Hce & Hfw).
  exists p'. repeat split; assumption.
Defined.

(** ** The alert send *)

Lemma blocked_until_alert_taken l : forall st p x a,
  at_ (event_loop p) = AtAlert x a ->
  OnEvents AlertTaken ∉ l ->
  forall s', run (st, p) l = Some s' ->
    at_ (event_loop s'.2) = AtAlert x a /\ eventCh_out s'.2 = eventCh_out p.
Proof.
  induction l as [|b l IH]; intros st p x a Hat Hnot s' Hrun.
  - injection Hrun as <-. by split.
  - cbn [run] in Hrun.
    destruct (pstep (st, p) b) as [[st1 p1]|] eqn:Hs; [|discriminate].
    cbn [mbind option_bind] in Hrun.
    apply not_elem_of_cons in Hnot as [Hb Hnot].
    assert (event_loop p1 = event_loop p) as Hsame.
    { unfold pstep in Hs. destruct (crashed p); [discriminate|].
      destruct b as [b|b|c e].
      - unfold gstep in Hs. rewrite Hat in Hs.
        destruct b; cbn in Hs; try discriminate. by destruct Hb.
      - destruct (gstep _ _ _ _ (error_loop p) b); cbn in Hs; [|discriminate].
        by injection Hs as <- <-.
      - by injection Hs as <- <-. }
    destruct (IH st1 p1 x a) with (s' := s') as [H1 H2];
      [by rewrite Hsame|exact Hnot|exact Hrun|].
    split; [exact H1|]. unfold eventCh_out in *. by rewrite H2, Hsame.
Qed.

(** C5, counterexample.  The event goroutine has received the
    dropped-messages counter and is sending the alert: the envelope cannot
    be taken from the event output, and whatever else happens, as long as
    no reader takes the alert the envelope is not forwarded. *)
Lemma alert_send_blocks_the_relay :
  run ([None], new_pipeline 0) [OnEvents (Deliver dropped_messages)]
    = Some ([None], blocked_on_alert) /\
  pstep ([None], blocked_on_alert) (OnEvents ItemTaken) = None /\
  (forall l s',
     run ([None], blocked_on_alert) l = Some s' ->
     OnEvents AlertTaken ∉ l ->
     eventCh_out s'.2 = [] /\
     in_flight (event_loop s'.2) = [dropped_messages]).
Proof.
  split; [reflexivity|]. split; [reflexivity|].
  intros l s' Hrun Hnot.
  destruct (blocked_until_alert_taken l [None] blocked_on_alert
              dropped_messages truncated_alert eq_refl Hnot s' Hrun) as [H1 H2].
  split; [exact H2|]. unfold in_flight. by rewrite H1.
Qed.

(** With the error goroutine panicked the process has ended, and the alert
    the event goroutine is sending is not taken any more. *)
Lemma panic_while_sending_alert :
  run ([None], new_pipeline 0)
      [OnEvents (Deliver dropped_messages); OnErrors (Deliver nil_close)]
    = Some ([None],
            mkPipeline 0 (event_loop blocked_on_alert)
              (mkGoroutine (Panicked nil_dereference)
                 [Received nil_close; OutputClosed])) /\
  pstep ([None],
         mkPipeline 0 (event_loop blocked_on_alert)
           (mkGoroutine (Panicked nil_dereference)
              [Received nil_close; OutputClosed]))
    (OnEvents AlertTaken) = None.
Proof. split; reflexivity. Qed.

(** C5, amended.  In a process that has not panicked, a goroutine that
    holds an item whose inspection asks for an alert sends the alert first
    and does nothing else until a reader has taken it: the only possible
    action is the receipt of the alert.  Once the alert is taken the
    goroutine is at its [select] with the same item, which a reader of the
    output channel can then take: the alert delays the relay of the item and
    does not drop it. *)
Theorem alert_precedes_relay (st : list error) (ctx : nat) :
  forall l st' p,
    run (st, new_pipeline ctx) l = Some (st', p) ->
    (forall x a,
       at_ (event_loop p) = AtAlert x a ->
       crashed p = false ->
       (forall b, is_Some (pstep (st', p) (OnEvents b)) <-> b = AlertTaken) /\
       exists p1 p2,
         pstep (st', p) (OnEvents AlertTaken) = Some (st', p1) /\
         at_ (event_loop p1) = AtSelect x /\
         alerts (event_loop p1) = alerts (event_loop p) ++ [a] /\
         pstep (st', p1) (OnEvents ItemTaken) = Some (st', p2) /\
         eventCh_out p2 = eventCh_out p ++ [x]) /\
    (forall x a,
       at_ (error_loop p) = AtAlert x a ->
       crashed p = false ->
       (forall b, is_Some (pstep (st', p) (OnErrors b)) <-> b = AlertTaken) /\
       exists p1 p2,
         pstep (st', p) (OnErrors AlertTaken) = Some (st', p1) /\
         at_ (error_loop p1) = AtSelect x /\
         alerts (error_loop p1) = alerts (error_loop p) ++ [a] /\
         pstep (st', p1) (OnErrors ItemTaken) = Some (st', p2) /\
         errCh_relayed p2 = errCh_relayed p ++ [x]).
Proof.
  intros l st' p Hrun. split.
  - intros x a Hat Hcr. split.
    + intros b. unfold pstep. rewrite Hcr. unfold gstep. rewrite Hat.
      destruct b; cbn; split; intros H; try done; try by destruct H as [? [=]].
    + pose (g1 := goto (event_loop p) (AtSelect x) [Alerted a]).
      pose (g2 := goto g1 AtRange [Forwarded x]).
      exists (mkPipeline (p_ctx p) g1 (error_loop p)),
             (mkPipeline (p_ctx p) g2 (error_loop p)).
      split; [apply pstep_events; [exact Hcr|by unfold gstep; rewrite Hat]|].
      split; [reflexivity|].
      split; [cbn [event_loop]; unfold g1; by rewrite alerts_goto|].
      unfold crashed in Hcr. apply orb_false_iff in Hcr as [_ Hpr].
      split; [apply (pstep_events st' (mkPipeline (p_ctx p) g1 (error_loop p))
                       ItemTaken g2);
              [by unfold crashed; cbn; rewrite Hpr|reflexivity]|].
      unfold eventCh_out, g2, g1. cbn [event_loop].
      rewrite !forwarded_goto. cbn. by rewrite app_nil_r.
  - intros x a Hat Hcr. split.
    + intros b. unfold pstep. rewrite Hcr. unfold gstep. rewrite Hat.
      destruct b; cbn; split; intros H; try done; try by destruct H as [? [=]].
    + pose (g1 := goto (error_loop p) (AtSelect x) [Alerted a]).
      pose (g2 := goto g1 AtRange [Forwarded x]).
      exists (mkPipeline (p_ctx p) (event_loop p) g1),
             (mkPipeline (p_ctx p) (event_loop p) g2).
      split; [apply pstep_errors; [exact Hcr|by unfold gstep; rewrite Hat]|].
      split; [reflexivity|].
      split; [cbn [error_loop]; unfold g1; by rewrite alerts_goto|].
      unfold crashed in Hcr. apply orb_false_iff in Hcr as [Hpe _].
      split; [apply (pstep_errors st' (mkPipeline (p_ctx p) (event_loop p) g1)
                       ItemTaken g2);
              [by unfold crashed; cbn; rewrite Hpe|reflexivity]|].
      unfold errCh_relayed, g2, g1. cbn [error_loop].
      rewrite !forwarded_goto. cbn. by rewrite app_nil_r.
Qed.

(** C5, on the dropped-messages counter: the alert is the only thing that
    can happen; once it is taken the envelope is forwarded. *)
Lemma alert_precedes_relay_witness :
  (forall b, is_Some (pstep ([None], blocked_on_alert) (OnEvents b)) <-> b = AlertTaken) /\
  exists p1 p2,
    pstep ([None], blocked_on_alert) (OnEvents AlertTaken) = Some ([None], p1) /\
    at_ (event_loop p1) = AtSelect dropped_messages /\
    alerts (event_loop p1) = [truncated_alert] /\
    pstep ([None], p1) (OnEvents ItemTaken) = Some ([None], p2) /\
    eventCh_out p2 = [dropped_messages].
Proof.
  exact (proj1 (alert_precedes_relay [None] 0
                  [OnEvents (Deliver dropped_messages)] [None] blocked_on_alert
                  eq_refl)
           dropped_messages truncated_alert eq_refl eq_refl).
Defined.
(** ** [Detect], [DetectContext] and [Stop] *)

Lemma ctx_cancel_noop ctx e st :
  is_Some (ctx_Err st ctx) -> ctx_cancel ctx e st = st.
Proof.
  unfold ctx_Err, ctx_cancel. intros [e0 He].
  destruct (st !! ctx) as [[e1|]|]; cbn in He; done.
Qed.

Lemma Stop_without_cancelFunc w :
  cancelFunc (detector w) = None ->
  Stop w = (fmt_Errorf "cancel function is not given",
            Println "[INFO] Stop detecting slowConsumerAlert event" w).
Proof. intros Hc. unfold Stop. cbn. by rewrite Hc. Qed.

Lemma Stop_with_cancelFunc w c :
  cancelFunc (detector w) = Some c ->
  Stop w =
  (None,
   mkWorld (ctx_cancel c context_Canceled (contexts w))
     (mkDetector (Some c)
        (logger (detector w) ++ ["[INFO] Stop detecting slowConsumerAlert event"]))
     (pipelines w)).
Proof. intros Hc. unfold Stop. cbn. by rewrite Hc. Qed.

Lemma repeat_Stop_cancelled n : forall w c,
  cancelFunc (detector w) = Some c ->
  is_Some (ctx_Err (contexts w) c) ->
  (repeat_Stop n w).1 = replicate n None /\
  contexts (repeat_Stop n w).2 = contexts w /\
  pipelines (repeat_Stop n w).2 = pipelines w /\
  cancelFunc (detector (repeat_Stop n w).2) = Some c.
Proof.
  induction n as [|n IH]; intros w c Hc Hdone; [done|].
  cbn [repeat_Stop]. rewrite (Stop_with_cancelFunc w c Hc).
  rewrite (ctx_cancel_noop _ _ _ Hdone).
  match goal with |- context [repeat_Stop n ?w1] =>
    destruct (IH w1 c eq_refl Hdone) as (H1 & H2 & H3 & H4);
    destruct (repeat_Stop n w1) as [es w2] end.
  cbn in *. by rewrite H1.
Qed.

Lemma repeat_Stop_not_given n : forall w,
  cancelFunc (detector w) = None ->
  (repeat_Stop n w).1 = replicate n (fmt_Errorf "cancel function is not given") /\
  contexts (repeat_Stop n w).2 = contexts w /\
  pipelines (repeat_Stop n w).2 = pipelines w /\
  cancelFunc (detector (repeat_Stop n w).2) = None.
Proof.
  induction n as [|n IH]; intros w Hc; [done|].
  cbn [repeat_Stop]. rewrite (Stop_without_cancelFunc w Hc).
  match goal with |- context [repeat_Stop n ?w1] =>
    destruct (IH w1 Hc) as (H1 & H2 & H3 & H4);
    destruct (repeat_Stop n w1) as [es w2] end.
  cbn in *. by rewrite H1.
Qed.

(** C6. [Stop] on a detector whose cancel function has not been stored
    (before any [Detect]) returns the error "cancel function is not given"
    and cancels nothing.  [Detect] always succeeds and starts a pipeline on
    a fresh, live context; from then on every call of [Stop] returns nil:
    the first one cancels that context with [context.Canceled], and the
    later ones change neither the contexts, nor the pipelines, nor the
    stored cancel function. *)
Theorem Stop_before_and_after_Detect (w : world) :
  (Stop new_world).1 = fmt_Errorf "cancel function is not given" /\
  (cancelFunc (detector w) = None ->
     (Stop w).1 = fmt_Errorf "cancel function is not given" /\
     contexts (Stop w).2 = contexts w /\ pipelines (Stop w).2 = pipelines w) /\
  exists i w1,
    Detect w = Ok (i, w1) /\
    pipelines w1 !! i = Some (new_pipeline (List.length (contexts w))) /\
    ctx_Err (contexts w1) (List.length (contexts w)) = None /\
    (Stop w1).1 = None /\
    ctx_Err (contexts (Stop w1).2) (List.length (contexts w)) = Some context_Canceled /\
    forall n,
      (repeat_Stop n (Stop w1).2).1 = replicate n None /\
      contexts (repeat_Stop n (Stop w1).2).2 = contexts (Stop w1).2 /\
      pipelines (repeat_Stop n (Stop w1).2).2 = pipelines w1 /\
      cancelFunc (detector (repeat_Stop n (Stop w1).2).2) = cancelFunc (detector w1).
Proof.
  split; [reflexivity|]. split.
  { intros Hc. by rewrite (Stop_without_cancelFunc w Hc). }
  unfold Detect, WithCancel, DetectContext. cbn.
  do 2 eexists. split; [reflexivity|].
  set (c := List.length (contexts w)).
  assert ((contexts w ++ [None]) !! c = Some None) as Hl.
  { by apply list_lookup_middle. }
  split; [by apply list_lookup_middle|].
  split; [unfold ctx_Err; cbn; by rewrite Hl|].
  match goal with |- context [Stop ?w1] =>
    rewrite (Stop_with_cancelFunc w1 c eq_refl) end.
  cbn [fst snd contexts pipelines].
  split; [reflexivity|].
  pose proof (ctx_cancel_cancels c context_Canceled _ Hl) as Hdone.
  split; [exact Hdone|].
  intros n.
  match goal with |- context [repeat_Stop n ?w1] =>
    destruct (repeat_Stop_cancelled n w1 c eq_refl) as (H1 & H2 & H3 & H4) end.
  { cbn. rewrite Hdone. by eexists. }
  by rewrite H1, H2, H3, H4.
Qed.

(** C6, on a fresh detector: the error before [Detect], nil three times
    after it, and the context cancelled. *)
Lemma Stop_before_and_after_Detect_witness :
  (Stop new_world).1 = fmt_Errorf "cancel function is not given" /\
  exists i w1,
    Detect new_world = Ok (i, w1) /\
    (Stop w1).1 = None /\
    (repeat_Stop 2 (Stop w1).2).1 = [None; None] /\
    contexts (repeat_Stop 2 (Stop w1).2).2 = [Some context_Canceled].
Proof.
  split; [exact (proj1 (Stop_before_and_after_Detect new_world))|].
  destruct (proj2 (proj2 (Stop_before_and_after_Detect new_world)))
    as (i & w1 & HD & _ & _ & HS & _ & Hn).
  exists i, w1. split; [exact HD|]. split; [exact HS|].
  destruct (Hn 2) as (H1 & H2 & _). split; [exact H1|]. rewrite H2.
  injection HD as <- <-. reflexivity.
Defined.

(** C10. [DetectContext] does not store a cancel function: on a detector
    on which [Detect] has never been called it starts a pipeline (both
    goroutines waiting for input) and leaves the cancel function nil, so
    that every later [Stop] returns the error "cancel function is not
    given" and leaves the contexts, the caller's included, and the
    pipeline as they are. *)
Theorem Stop_after_DetectContext_is_refused (w : world) (ctx : nat) :
  cancelFunc (detector w) = None ->
  exists i w1,
    DetectContext (Some ctx) w = Ok (i, w1) /\
    pipelines w1 !! i = Some (new_pipeline ctx) /\
    cancelFunc (detector w1) = None /\
    contexts w1 = contexts w /\
    forall n,
      (repeat_Stop n w1).1 = replicate n (fmt_Errorf "cancel function is not given") /\
      contexts (repeat_Stop n w1).2 = contexts w /\
      pipelines (repeat_Stop n w1).2 !! i = Some (new_pipeline ctx) /\
      pipeline_state (repeat_Stop n w1).2 i = Some (contexts w, new_pipeline ctx).
Proof.
  intros Hc. unfold DetectContext. cbn. do 2 eexists.
  split; [reflexivity|].
  assert ((pipelines w ++ [new_pipeline ctx]) !! List.length (pipelines w)
          = Some (new_pipeline ctx)) as Hl.
  { by apply list_lookup_middle. }
  split; [exact Hl|]. split; [exact Hc|]. split; [reflexivity|].
  intros n.
  match goal with |- context [repeat_Stop n ?w1] =>
    destruct (repeat_Stop_not_given n w1 Hc) as (H1 & H2 & H3 & H4) end.
  unfold pipeline_state. rewrite H1, H2, H3. cbn [contexts pipelines].
  rewrite Hl. done.
Qed.

(** C10, on a caller's live context: after [DetectContext], [Stop] is
    refused and the context stays live. *)
Lemma Stop_after_DetectContext_is_refused_witness :
  exists i w1,
    DetectContext (Some 0) (mkWorld [None] (mkDetector None []) []) = Ok (i, w1) /\
    (Stop w1).1 = fmt_Errorf "cancel function is not given" /\
    ctx_Err (contexts (Stop w1).2) 0 = None /\
    pipeline_state (Stop w1).2 i = Some ([None], new_pipeline 0).
Proof.
  destruct (Stop_after_DetectContext_is_refused
              (mkWorld [None] (mkDetector None []) []) 0 eq_refl)
    as (i & w1 & HD & _ & _ & _ & Hn).
  exists i, w1. split; [exact HD|].
  destruct (Hn 1) as (H1 & H2 & _ & H4).
  injection HD as <- <-. repeat split.
Defined.

(** ** [consumer.Close] and [newRawConsumer] *)

(** C7. [Close] calls [Close] of the raw consumer first.  If that returns
    an error, [Close] returns this error, the slow detector is left as it
    was and [Stop] is not called; otherwise [Stop] of the slow detector is
    called next and [Close] returns what it returns.  This holds for every
    implementation of the two interfaces. *)
Theorem Close_raw_consumer_then_detector
    {R D : Type} `{RawConsumer R} `{SlowDetector D} (c : consumer R D) :
  (forall e,
     (RawConsumer_Close (c_rawConsumer c)).1 = Some e ->
     (Close c).1.1 = Some e /\
     c_slowDetector (Close c).1.2 = c_slowDetector c /\
     (Close c).2 = [Call_RawConsumer_Close]) /\
  ((RawConsumer_Close (c_rawConsumer c)).1 = None ->
     (Close c).1.1 = (SlowDetector_Stop (c_slowDetector c)).1 /\
     c_slowDetector (Close c).1.2 = (SlowDetector_Stop (c_slowDetector c)).2 /\
     (Close c).2 = [Call_RawConsumer_Close; Call_SlowDetector_Stop]) /\
  c_rawConsumer (Close c).1.2 = (RawConsumer_Close (c_rawConsumer c)).2 /\
  head (Close c).2 = Some Call_RawConsumer_Close.
Proof.
  unfold Close.
  destruct (RawConsumer_Close (c_rawConsumer c)) as [[e|] r]; cbn.
  - split; [intros e' [= <-]; done|]. split; [discriminate|done].
  - destruct (SlowDetector_Stop (c_slowDetector c)) as [err d]; cbn.
    split; [discriminate|done].
Qed.

(** C7, on [rawConsumer] and [defaultSlowDetector]: without a connection
    [Close] returns the raw consumer's error and the detector's context
    stays live; with a connection that closes cleanly the detector is
    stopped and its context is cancelled. *)
Lemma Close_raw_consumer_then_detector_witness :
  exists i w1,
    Detect new_world = Ok (i, w1) /\
    (forall rc,
       connection rc = None ->
       (Close (mkConsumer rc w1)).1.1 = fmt_Errorf "no connection with firehose" /\
       ctx_Err (contexts (c_slowDetector (Close (mkConsumer rc w1)).1.2)) 0 = None /\
       (Close (mkConsumer rc w1)).2 = [Call_RawConsumer_Close]) /\
    (forall rc,
       connection rc = Some (mkNoaa None) ->
       (Close (mkConsumer rc w1)).1.1 = None /\
       ctx_Err (contexts (c_slowDetector (Close (mkConsumer rc w1)).1.2)) 0
         = Some context_Canceled /\
       (Close (mkConsumer rc w1)).2 = [Call_RawConsumer_Close; Call_SlowDetector_Stop]).
Proof.
  do 2 eexists. split; [reflexivity|]. split.
  - intros rc Hconn.
    match goal with |- context [Close ?c] =>
      destruct (proj1 (Close_raw_consumer_then_detector c)
                  (errorString "no connection with firehose"))
        as (H1 & H2 & H3) end.
    { cbn. unfold rawConsumer_Close. cbn. by rewrite Hconn. }
    rewrite H1, H2, H3. done.
  - intros rc Hconn.
    match goal with |- context [Close ?c] =>
      destruct (proj1 (proj2 (Close_raw_consumer_then_detector c)))
        as (H1 & H2 & H3) end.
    { cbn. unfold rawConsumer_Close. cbn. by rewrite Hconn. }
    rewrite H1, H2, H3. done.
Defined.

(** C8. With an empty [DopplerAddr], [Token] or [SubscriptionID],
    [newRawConsumer] returns the nil consumer and an error whose message
    names a field that is empty (the first one in that order); an empty
    [SubscriptionID] alone gives "SubscriptionID must not be empty"; with
    the three fields non-empty it returns the consumer built from the
    configuration, not yet connected, and no error. *)
Theorem newRawConsumer_validates (config : Config) :
  (DopplerAddr config = "" \/ Token config = "" \/ SubscriptionID config = "" ->
     exists msg,
       newRawConsumer config = (None, fmt_Errorf msg) /\
       ((msg = "DopplerAddr must not be empty" /\ DopplerAddr config = "") \/
        (msg = "Token must not be empty" /\ Token config = "") \/
        (msg = "SubscriptionID must not be empty" /\ SubscriptionID config = ""))) /\
  (DopplerAddr config <> "" -> Token config <> "" -> SubscriptionID config = "" ->
     newRawConsumer config = (None, fmt_Errorf "SubscriptionID must not be empty")) /\
  (DopplerAddr config <> "" -> Token config <> "" -> SubscriptionID config <> "" ->
     newRawConsumer config =
     (Some (mkRawConsumer None (DopplerAddr config) (Token config)
              (SubscriptionID config) (Insecure config) (DebugPrinter config)
              (Logger config)),
      None)).
Proof.
  unfold newRawConsumer, validate. cbn.
  destruct (String.eqb_spec (DopplerAddr config) "") as [Hd|Hd];
    [|destruct (String.eqb_spec (Token config) "") as [Ht|Ht];
      [|destruct (String.eqb_spec (SubscriptionID config) "") as [Hs|Hs]]].
  - split; [intros _; eexists; split; [reflexivity|auto]|]. split; done.
  - split; [intros _; eexists; split; [reflexivity|auto]|]. split; done.
  - split; [intros _; eexists; split; [reflexivity|auto]|]. split; done.
  - split; [intros [?|[?|?]]; done|]. split; done.
Qed.

(** C8, on the scenario of the spec: an empty subscription identity. *)
Lemma newRawConsumer_validates_witness :
  newRawConsumer (mkConfig "wss://doppler.example.com" "bearer" "" false None [])
  = (None, fmt_Errorf "SubscriptionID must not be empty") /\
  exists c,
    newRawConsumer (mkConfig "wss://doppler.example.com" "bearer" "nozzle" false None [])
    = (Some c, None) /\ subscriptionID c = "nozzle".
Proof.
  split.
  - apply (proj1 (proj2 (newRawConsumer_validates
                           (mkConfig "wss://doppler.example.com" "bearer" ""
                              false None []))));
      [discriminate|discriminate|reflexivity].
  - eexists. split.
    + apply (proj2 (proj2 (newRawConsumer_validates
                             (mkConfig "wss://doppler.example.com" "bearer" "nozzle"
                                false None [])))); discriminate.
    + reflexivity.
Defined.


(** * Further properties *)

(** ** The pipeline: relay, panics, closing, dropped items *)

Lemma pstep_done s a s' c e :
  pstep s a = Some s' -> ctx_Err s.1 c = Some e -> ctx_Err s'.1 c = Some e.
Proof.
  destruct s as [st p]. unfold pstep.
  destruct (crashed p); [discriminate|].
  destruct a as [a|a|c' e'].
  - destruct (gstep _ _ _ _ _ a); cbn; [|discriminate]. by intros [= <-].
  - destruct (gstep _ _ _ _ _ a); cbn; [|discriminate]. by intros [= <-].
  - intros [= <-]. cbn. apply ctx_cancel_done.
Qed.

Lemma run_done l : forall s s' c e,
  run s l = Some s' -> ctx_Err s.1 c = Some e -> ctx_Err s'.1 c = Some e.
Proof.
  induction l as [|a l IH]; intros s s' c e Hrun Hdone; cbn in Hrun.
  - by injection Hrun as <-.
  - destruct (pstep s a) as [s1|] eqn:Hs; [|discriminate].
    eapply IH; [exact Hrun|]. by eapply pstep_done.
Qed.

(** X12. The relay.  Whatever the environment delivers and however it
    schedules the readers, each goroutine forwards what it received,
    unmodified and in the order of receipt, each item at most once, and the
    error goroutine panics only if it has received a nil
    [*websocket.CloseError].  As long as the context is not cancelled no
    cancellation error is sent, the event goroutine does not panic and
    skips nothing (the only envelope received and not yet forwarded is the
    one it holds), and neither does the error goroutine as long as it has
    not panicked.  And an environment whose readers take everything and
    that delivers no nil [*websocket.CloseError] gets every envelope and
    every error, exactly once and in order, on the corresponding output
    channel, and both goroutines return. *)
Theorem relay_unmodified_in_order (st : list error) (ctx : nat) :
  (forall l st' p,
     run (st, new_pipeline ctx) l = Some (st', p) ->
     eventCh_out p `prefix_of` received (event_loop p) /\
     errCh_relayed p `prefix_of` received (error_loop p) /\
     (nil_close ∉ received (error_loop p) -> panicked (error_loop p) = false) /\
     (ctx_Err st' ctx = None ->
        received (event_loop p) = eventCh_out p ++ in_flight (event_loop p) /\
        panicked (event_loop p) = false /\
        cancellation_errors p = [] /\
        (panicked (error_loop p) = false ->
           received (error_loop p) = errCh_relayed p ++ in_flight (error_loop p)))) /\
  (forall evs errs,
     nil_close ∉ errs ->
     exists p,
       run (st, new_pipeline ctx) (cooperative evs errs) = Some (st, p) /\
       received (event_loop p) = evs /\ eventCh_out p = evs /\
       received (error_loop p) = errs /\ errCh_relayed p = errs /\
       at_ (event_loop p) = Returned /\ at_ (error_loop p) = Returned).
Proof.
  split.
  - intros l st' p Hrun.
    pose proof (run_reachable _ _ _ _ Hrun) as Hinv.
    pose proof Hinv as (_ & Hev & Her & _). cbn in Hev, Her.
    split; [eapply inv_prefix; eauto|].
    split; [eapply inv_prefix; eauto|].
    split.
    { intros Hnil. destruct (panicked (error_loop p)) eqn:Hp; [|reflexivity].
      destruct (error_loop_panicked _ _ Hinv Hp) as (_ & Hr & _).
      cbn in Hr. exfalso. apply Hnil. rewrite Hr.
      apply elem_of_app. right. apply list_elem_of_singleton. reflexivity. }
    intros Hlive.
    assert (panicked (event_loop p) = false) as Hpe.
    { destruct (panicked (event_loop p)) eqn:Hp; [|reflexivity].
      destruct (event_loop_panicked _ _ Hinv Hp) as (_ & Hdone).
      cbn in Hdone. rewrite Hlive in Hdone. by destruct Hdone. }
    rewrite Hlive in Hev, Her.
    apply inv_live in Hev as (He1 & He2).
    apply inv_live in Her as (Hr1 & Hr2).
    unfold eventCh_out, errCh_relayed, cancellation_errors.
    rewrite He1, Hr1. auto.
  - intros evs errs Hnil. eexists. split; [by apply cooperative_run|].
    destruct (iterations_projections inspect_event evs) as (Hr & Hf & _).
    destruct (iterations_projections inspect_error errs) as (Hr' & Hf' & _).
    unfold eventCh_out, errCh_relayed, received, forwarded in *.
    cbn [hist event_loop error_loop at_] in *.
    rewrite !omap_app, Hr, Hf, Hr', Hf'. cbn. by rewrite !app_nil_r.
Qed.

(** X12, on the scenario of the spec: two envelopes and an error through a
    pipeline that is not cancelled. *)
Lemma relay_unmodified_in_order_witness :
  exists p,
    run ([None], new_pipeline 0)
        (cooperative [cpu_metric; cpu_metric] [normal_close]) = Some ([None], p) /\
    eventCh_out p = [cpu_metric; cpu_metric] /\
    errCh_relayed p = [normal_close].
Proof.
  destruct (proj2 (relay_unmodified_in_order [None] 0)
              [cpu_metric; cpu_metric] [normal_close])
    as (p & Hrun & _ & He & _ & Hr & _).
  { intros Hin. apply list_elem_of_singleton in Hin. discriminate Hin. }
  exists p. repeat split; assumption.
Defined.



(** X2. A goroutine closes its output channel exactly when it ends, by
    returning or by panicking, once, and as the last thing it does: in
    every run the history of a goroutine that has ended finishes with the
    close and contains no other, and the history of one that has not ended
    contains none. *)
Theorem output_closed_once_and_last (st : list error) (ctx : nat) :
  forall l st' p,
    run (st, new_pipeline ctx) l = Some (st', p) ->
    closes_last (event_loop p) /\
    closes_last (error_loop p).
Proof.
  intros l st' p Hrun.
  destruct (run_reachable _ _ _ _ Hrun) as (Hctx & Hev & Her & Hp).
  cbn [fst snd] in *.
  split; eapply inv_closes_last; eauto.
Qed.

(** X2, on a complete run and on a run that panics: each goroutine closed
    its output once, last. *)
Lemma output_closed_once_and_last_witness :
  (exists p,
     run ([None], new_pipeline 0) (cooperative [cpu_metric] [normal_close])
       = Some ([None], p) /\
     closes (event_loop p) = [()] /\
     last (hist (event_loop p)) = Some OutputClosed) /\
  (exists p,
     run ([None], new_pipeline 0) panic_schedule = Some ([Some context_Canceled], p) /\
     closes (event_loop p) = [()] /\
     last (hist (event_loop p)) = Some OutputClosed).
Proof.
  split.
  - eexists. split; [reflexivity|].
    match goal with |- context [closes (event_loop ?p)] =>
      destruct (output_closed_once_and_last [None] 0
                  (cooperative [cpu_metric] [normal_close]) [None] p eq_refl)
        as ((H1 & H2) & _) end.
    split; [exact H1|exact (H2 eq_refl)].
  - eexists. split; [reflexivity|].
    match goal with |- context [closes (event_loop ?p)] =>
      destruct (output_closed_once_and_last [None] 0
                  panic_schedule [Some context_Canceled] p eq_refl)
        as ((H1 & H2) & _) end.
    split; [exact H1|exact (H2 eq_refl)].
Defined.

(** X3. What cancellation costs.  In every run, what a goroutine has
    received is what it has forwarded, followed by at most one item.  If the
    goroutine never took the cancellation branch it has logged nothing and
    sent no cancellation error, and that item is the one it still holds; if
    it took it, it logged its cancellation line exactly once, the context is
    done, and exactly one received item, the one it held, is dropped for
    good.  The one other case is that of the error goroutine that has
    panicked in the inspection of a nil [*websocket.CloseError]: that error
    is the item received and not forwarded, and nothing was logged. *)
Theorem cancellation_drops_the_held_item (st : list error) (ctx : nat) :
  forall l st' p,
    run (st, new_pipeline ctx) l = Some (st', p) ->
    relay_account event_cancel_line (ctx_Err st' ctx) (event_loop p) /\
    (relay_account error_cancel_line (ctx_Err st' ctx) (error_loop p) \/
     (at_ (error_loop p) = Panicked nil_dereference /\
      received (error_loop p) = errCh_relayed p ++ [nil_close] /\
      logged (error_loop p) = [] /\
      ctx_errs (error_loop p) = [])).
Proof.
  intros l st' p Hrun.
  pose proof (run_reachable _ _ _ _ Hrun) as Hinv.
  pose proof Hinv as (_ & Hev & Her & _). cbn [fst snd] in Hev, Her.
  split.
  - destruct (inv_relay_account _ _ _ _ Hev)
      as [Hacc|(x & m & _ & Hx & _)]; [exact Hacc|].
    destruct (inspect_event_ok x). congruence.
  - destruct (inv_relay_account _ _ _ _ Her)
      as [Hacc|(x & m & Hat & _)]; [by left|right].
    apply (error_loop_panicked _ _ Hinv).
    cbn [snd]. unfold panicked. by rewrite Hat.
Qed.

(** X3, on a concrete run: the error goroutine holds a close error when the
    context is cancelled and leaves by the cancellation branch; the close
    error is dropped, the cancellation line is logged once. *)
Lemma cancellation_drops_the_held_item_witness :
  exists p,
    run ([None], new_pipeline 0)
        [OnErrors (Deliver normal_close); CancelCtx 0 context_Canceled;
         OnErrors DoneChosen; OnErrors CtxErrTaken]
      = Some ([Some context_Canceled], p) /\
    relay_account error_cancel_line (Some context_Canceled) (error_loop p) /\
    received (error_loop p) = [normal_close] /\
    errCh_relayed p = [] /\
    logged (error_loop p) = [error_cancel_line].
Proof.
  eexists. split; [reflexivity|]. split; [|repeat split; reflexivity].
  match goal with |- relay_account _ _ (error_loop ?p) =>
    destruct (proj2 (cancellation_drops_the_held_item [None] 0
                       [OnErrors (Deliver normal_close); CancelCtx 0 context_Canceled;
                        OnErrors DoneChosen; OnErrors CtxErrTaken]
                       [Some context_Canceled] p eq_refl))
      as [Hacc|(Hat & _)]; [exact Hacc|discriminate Hat] end.
Defined.



Lemma Forall_omap_fixed {A B} (f : A -> option B) (b : B) (l : list A) :
  (forall x y, f x = Some y -> y = b) -> Forall (fun y => y = b) (omap f l).
Proof.
  intros Hf. apply Forall_forall. intros y Hy.
  apply list_elem_of_omap in Hy as (x & _ & Hx). by eapply Hf.
Qed.

Lemma length_omap_le {A B} (f : A -> option B) (l : list A) :
  List.length (omap f l) <= List.length l.
Proof.
  induction l as [|x l IH]; cbn; [lia|]. destruct (f x); cbn; lia.
Qed.

(** X5. What the alert channel carries.  In every run, every alert the
    event goroutine has sent or is sending is the error "doppler dropped
    messages from its queue because nozzle is slow", and every alert of the
    error goroutine is the error "websocket terminates the connection
    because connection is too slow (ClosePolicyViolation)": never nil, never
    a relayed error; and a goroutine has raised at most as many alerts as it
    has received items. *)
Theorem alerts_are_the_two_fixed_errors (st : list error) (ctx : nat) :
  forall l st' p,
    run (st, new_pipeline ctx) l = Some (st', p) ->
    Forall (fun a => a = truncated_alert)
      (alerts (event_loop p) ++ alert_pending (event_loop p)) /\
    Forall (fun a => a = policy_alert)
      (alerts (error_loop p) ++ alert_pending (error_loop p)) /\
    List.length (alerts (event_loop p) ++ alert_pending (event_loop p))
      <= List.length (received (event_loop p)) /\
    List.length (alerts (error_loop p) ++ alert_pending (error_loop p))
      <= List.length (received (error_loop p)).
Proof.
  intros l st' p Hrun.
  destruct (run_reachable _ _ _ _ Hrun) as (Hctx & Hev & Her & Hp).
  cbn [fst snd] in *.
  rewrite (inv_alerts _ _ _ _ Hev).
  rewrite (inv_alerts _ _ _ _ Her).
  repeat split; try apply length_omap_le.
  - apply Forall_omap_fixed. intros x y. rewrite event_alert_of.
    destruct (decide _); congruence.
  - apply Forall_omap_fixed. intros x y. rewrite error_alert_of.
    destruct (decide _); congruence.
Qed.

(** X5, on the scenario of the spec. *)
Lemma alerts_are_the_two_fixed_errors_witness :
  exists p,
    run ([None], new_pipeline 0)
        (cooperative [dropped_messages; cpu_metric] [policy_close])
      = Some ([None], p) /\
    Forall (fun a => a = truncated_alert) (alerts (event_loop p) ++ []) /\
    Forall (fun a => a = policy_alert) (alerts (error_loop p) ++ []) /\
    alerts (event_loop p) = [truncated_alert] /\
    alerts (error_loop p) = [policy_alert].
Proof.
  eexists. split; [reflexivity|].
  match goal with |- context [alerts (event_loop ?p)] =>
    destruct (alerts_are_the_two_fixed_errors [None] 0
                (cooperative [dropped_messages; cpu_metric] [policy_close])
                [None] p eq_refl)
      as (H1 & H2 & _) end.
  split; [exact H1|]. split; [exact H2|]. split; reflexivity.
Defined.

(** ** [Stop] and the contexts *)

Lemma ctx_cancel_other ctx e st c :
  ctx <> c -> ctx_Err (ctx_cancel ctx e st) c = ctx_Err st c.
Proof.
  intros Hne. unfold ctx_cancel. destruct (st !! ctx) as [[e0|]|]; try done.
  unfold ctx_Err. by rewrite list_lookup_insert_ne.
Qed.

Lemma ctx_cancel_length ctx e st :
  List.length (ctx_cancel ctx e st) = List.length st.
Proof.
  unfold ctx_cancel. destruct (st !! ctx) as [[e0|]|]; try done.
  apply length_insert.
Qed.

Lemma ctx_Err_app_l (st : list error) x c :
  c < List.length st -> ctx_Err (st ++ [x]) c = ctx_Err st c.
Proof. intros Hlt. unfold ctx_Err. by rewrite lookup_app_l. Qed.

Lemma Detect_world w :
  Detect w =
  Ok (List.length (pipelines w),
      mkWorld (contexts w ++ [None])
        (mkDetector (Some (List.length (contexts w)))
           (logger (detector w) ++ ["[INFO] Start detecting slowConsumerAlert event"]))
        (pipelines w ++ [new_pipeline (List.length (contexts w))])).
Proof. reflexivity. Qed.

(** X6. [Stop] touches nothing but the context whose cancel function is
    stored.  It returns nil exactly when a cancel function is stored; it
    leaves the pipelines, the stored cancel function and the number of
    contexts as they are and logs exactly one line; every other context
    keeps its state; and a context that is already done keeps its
    termination error (a deadline that has passed is not turned into a
    cancellation). *)
Theorem Stop_touches_only_its_context (w : world) :
  ((Stop w).1 = None <-> is_Some (cancelFunc (detector w))) /\
  pipelines (Stop w).2 = pipelines w /\
  cancelFunc (detector (Stop w).2) = cancelFunc (detector w) /\
  logger (detector (Stop w).2)
    = logger (detector w) ++ ["[INFO] Stop detecting slowConsumerAlert event"] /\
  List.length (contexts (Stop w).2) = List.length (contexts w) /\
  (forall c, cancelFunc (detector w) <> Some c ->
     ctx_Err (contexts (Stop w).2) c = ctx_Err (contexts w) c) /\
  (forall c e, ctx_Err (contexts w) c = Some e ->
     ctx_Err (contexts (Stop w).2) c = Some e).
Proof.
  destruct (cancelFunc (detector w)) as [c0|] eqn:Hc.
  - rewrite (Stop_with_cancelFunc w c0 Hc). cbn.
    split; [split; [by eexists|done]|].
    repeat split; try done.
    + apply ctx_cancel_length.
    + intros c Hne. apply ctx_cancel_other. congruence.
    + intros c e. apply ctx_cancel_done.
  - rewrite (Stop_without_cancelFunc w Hc). cbn.
    split; [split; [discriminate|by intros [? [=]]]|]. by rewrite Hc.
Qed.

Lemma repeat_Stop_other n : forall w c,
  cancelFunc (detector w) <> Some c ->
  ctx_Err (contexts (repeat_Stop n w).2) c = ctx_Err (contexts w) c /\
  pipelines (repeat_Stop n w).2 = pipelines w.
Proof.
  induction n as [|n IH]; intros w c Hne; [done|].
  cbn [repeat_Stop].
  destruct (cancelFunc (detector w)) as [c0|] eqn:Hc.
  - rewrite (Stop_with_cancelFunc w c0 Hc).
    match goal with |- context [repeat_Stop n ?w1] =>
      destruct (IH w1 c Hne) as (H1 & H2);
      destruct (repeat_Stop n w1) as [es w2] end.
    cbn in *. rewrite H1, H2. split; [|done].
    apply ctx_cancel_other. congruence.
  - rewrite (Stop_without_cancelFunc w Hc).
    match goal with |- context [repeat_Stop n ?w1] =>
      destruct (IH w1 c) as (H1 & H2); [by cbn; rewrite Hc|];
      destruct (repeat_Stop n w1) as [es w2] end.
    cbn in *. by rewrite H1, H2.
Qed.

(** X7. [Stop] stops only the pipeline of the latest [Detect].  [Detect]
    overwrites the stored cancel function with that of its fresh context,
    so that afterwards no number of calls of [Stop] changes any context
    that existed before (the context an earlier [Detect] created, a
    caller's context given to [DetectContext]), and the pipelines started
    before are left as they are: they can no longer be stopped through
    [Stop]. *)
Theorem Stop_stops_only_the_latest_Detect (w : world) :
  forall i w1,
    Detect w = Ok (i, w1) ->
    forall n,
      (forall c, c < List.length (contexts w) ->
         ctx_Err (contexts (repeat_Stop n w1).2) c = ctx_Err (contexts w) c) /\
      (forall j q, pipelines w !! j = Some q ->
         pipelines (repeat_Stop n w1).2 !! j = Some q) /\
      (0 < n ->
         ctx_Err (contexts (repeat_Stop n w1).2) (List.length (contexts w))
           = Some context_Canceled).
Proof.
  intros i w0 HD n. rewrite Detect_world in HD. injection HD as <- <-.
  match goal with |- context [repeat_Stop n ?w'] => set (w1 := w') end.
  split; [|split].
  - intros c Hlt.
    destruct (repeat_Stop_other n w1 c) as (H1 & _).
    { subst w1. cbn. intros [= H]. lia. }
    rewrite H1. subst w1. cbn. by apply ctx_Err_app_l.
  - intros j q Hj.
    destruct (repeat_Stop_other n w1 (S (List.length (contexts w)))) as (_ & H2).
    { subst w1. cbn. intros [= H]. lia. }
    rewrite H2. subst w1. cbn. by apply lookup_app_l_Some.
  - intros Hn. destruct n as [|n]; [lia|]. cbn [repeat_Stop].
    rewrite (Stop_with_cancelFunc w1 (List.length (contexts w)) eq_refl).
    assert (ctx_Err (ctx_cancel (List.length (contexts w)) context_Canceled
                       (contexts w1)) (List.length (contexts w))
            = Some context_Canceled) as Hdone.
    { apply ctx_cancel_cancels. subst w1. cbn. by apply list_lookup_middle. }
    match goal with |- context [repeat_Stop n ?w2] =>
      destruct (repeat_Stop_cancelled n w2 (List.length (contexts w)) eq_refl)
        as (_ & H2 & _); [cbn [contexts]; rewrite Hdone; by eexists|];
      destruct (repeat_Stop n w2) as [es w3] end.
    cbn [fst snd contexts] in *. by rewrite H2.
Qed.

(** X7, with two calls of [Detect]: [Stop] cancels the context of the second
    pipeline and never that of the first. *)
Lemma Stop_stops_only_the_latest_Detect_witness :
  exists i1 w1 i2 w2,
    Detect new_world = Ok (i1, w1) /\
    Detect w1 = Ok (i2, w2) /\
    pipelines w2 !! i1 = Some (new_pipeline 0) /\
    pipelines w2 !! i2 = Some (new_pipeline 1) /\
    ctx_Err (contexts (repeat_Stop 3 w2).2) 0 = None /\
    ctx_Err (contexts (repeat_Stop 3 w2).2) 1 = Some context_Canceled.
Proof.
  do 4 eexists. split; [reflexivity|]. split; [reflexivity|].
  split; [reflexivity|]. split; [reflexivity|].
  match goal with |- context [repeat_Stop 3 ?w2] =>
    pose proof (Stop_stops_only_the_latest_Detect
                  (mkWorld [None]
                     (mkDetector (Some 0)
                        ["[INFO] Start detecting slowConsumerAlert event"])
                     [new_pipeline 0])
                  1 w2 eq_refl 3) as (H1 & _ & H3) end.
  split; [exact (H1 0 (Nat.lt_0_succ 0))|exact (H3 (Nat.lt_0_succ 2))].
Defined.

Lemma pstep_length s a s' :
  pstep s a = Some s' -> List.length s'.1 = List.length s.1.
Proof.
  destruct s as [st p]. unfold pstep.
  destruct (crashed p); [discriminate|].
  destruct a as [a|a|c e].
  - destruct (gstep _ _ _ _ _ a); cbn; [|discriminate]. by intros [= <-].
  - destruct (gstep _ _ _ _ _ a); cbn; [|discriminate]. by intros [= <-].
  - intros [= <-]. cbn. apply ctx_cancel_length.
Qed.

Lemma run_length l : forall s s',
  run s l = Some s' -> List.length s'.1 = List.length s.1.
Proof.
  induction l as [|a l IH]; intros s s' Hrun; cbn in Hrun.
  - by injection Hrun as <-.
  - destruct (pstep s a) as [s1|] eqn:Hs; [|discriminate].
    rewrite (IH _ _ Hrun). by eapply pstep_length.
Qed.

(** X8. What [Stop] does to a running pipeline.  Take the pipeline that
    [Detect] started, at any point of a run in which its context is still
    live: it has sent no cancellation error so far.  When [Stop] is called
    there, the context is done with [context.Canceled], it stays so whatever
    happens afterwards, and every cancellation error the goroutines send
    from then on is [context.Canceled]. *)
Theorem Stop_makes_the_loops_send_Canceled (w : world) :
  forall i w1 l0 st0 p0 l1 st1 p1,
    Detect w = Ok (i, w1) ->
    run (contexts w1, new_pipeline (List.length (contexts w))) l0 = Some (st0, p0) ->
    ctx_Err st0 (List.length (contexts w)) = None ->
    run (contexts (Stop (mkWorld st0 (detector w1) (pipelines w1))).2, p0) l1
      = Some (st1, p1) ->
    cancellation_errors p0 = [] /\
    ctx_Err st1 (List.length (contexts w)) = Some context_Canceled /\
    Forall (fun e => e = Some context_Canceled) (cancellation_errors p1).
Proof.
  intros i w1 l0 st0 p0 l1 st1 p1 HD Hrun0 Hlive Hrun1.
  rewrite Detect_world in HD. injection HD as <- <-.
  cbn [contexts detector pipelines] in *.
  set (c := List.length (contexts w)) in *.
  destruct (run_reachable _ _ _ _ Hrun0) as (Hctx & Hev & Her & Hp).
  cbn [fst snd] in *.
  assert (st0 !! c = Some None) as Hl.
  { pose proof (run_length _ _ _ Hrun0) as Hlen. cbn in Hlen.
    rewrite length_app in Hlen. cbn in Hlen.
    unfold ctx_Err in Hlive.
    destruct (st0 !! c) as [[e|]|] eqn:Hx; cbn in Hlive; try done.
    apply lookup_ge_None in Hx. subst c. exfalso.
    unfold error in *. lia. }
  match type of Hrun1 with context [Stop ?w'] =>
    rewrite (Stop_with_cancelFunc w' c eq_refl) in Hrun1 end.
  cbn [fst snd contexts] in Hrun1.
  pose proof (ctx_cancel_cancels c context_Canceled st0 Hl) as Hdone.
  assert (pinv c (ctx_cancel c context_Canceled st0, p0)) as Hinv.
  { repeat split; cbn [fst snd]; try assumption.
    - eapply inv_mono; [|exact Hev]. left. exact Hlive.
    - eapply inv_mono; [|exact Her]. left. exact Hlive. }
  pose proof (pinv_run c l1 _ _ Hrun1 Hinv) as (_ & Hev1 & Her1 & _).
  pose proof (run_done l1 _ _ c context_Canceled Hrun1 Hdone) as Hdone1.
  cbn [fst snd] in *. rewrite Hdone1 in Hev1, Her1.
  split.
  { rewrite Hlive in Hev, Her.
    apply inv_live in Hev as (He & _).
    apply inv_live in Her as (Hr & _).
    unfold cancellation_errors. by rewrite He, Hr. }
  split; [exact Hdone1|].
  unfold cancellation_errors. apply Forall_app. split.
  - destruct (inv_ctx_errs _ _ _ _ Hev1) as [->|(-> & _)];
      by repeat constructor.
  - destruct (inv_ctx_errs _ _ _ _ Her1) as [->|(-> & _)];
      by repeat constructor.
Qed.

(** X8, on a concrete run: [Detect], an error delivered, [Stop], and the
    error goroutine leaves by its cancellation branch. *)
Lemma Stop_makes_the_loops_send_Canceled_witness :
  exists i w1 st0 p0 st1 p1,
    Detect new_world = Ok (i, w1) /\
    run (contexts w1, new_pipeline 0) [OnErrors (Deliver normal_close)]
      = Some (st0, p0) /\
    run (contexts (Stop (mkWorld st0 (detector w1) (pipelines w1))).2, p0)
        [OnErrors DoneChosen; OnErrors CtxErrTaken]
      = Some (st1, p1) /\
    cancellation_errors p1 = [Some context_Canceled] /\
    Forall (fun e => e = Some context_Canceled) (cancellation_errors p1).
Proof.
  do 6 eexists. split; [reflexivity|]. split; [reflexivity|].
  split; [reflexivity|]. split; [reflexivity|].
  exact (proj2 (proj2 (Stop_makes_the_loops_send_Canceled new_world
                         _ _ [OnErrors (Deliver normal_close)] _ _
                         [OnErrors DoneChosen; OnErrors CtxErrTaken] _ _
                         eq_refl eq_refl eq_refl eq_refl))).
Defined.

(** ** Construction of the raw consumer *)

(** X9. [newRawConsumer] returns exactly one of a consumer and an error.  It
    returns a consumer exactly when [DopplerAddr], [Token] and
    [SubscriptionID] are all non-empty; the first empty one, in this order,
    decides the message ([DopplerAddr] before [Token] before
    [SubscriptionID]); and the outcome (success, or which error) does not
    depend on [Insecure], [DebugPrinter] or [Logger]. *)
Theorem newRawConsumer_one_of_consumer_and_error (config : Config) :
  ((newRawConsumer config).1 = None <-> (newRawConsumer config).2 <> None) /\
  ((newRawConsumer config).2 = None <->
     DopplerAddr config <> "" /\ Token config <> "" /\ SubscriptionID config <> "") /\
  (DopplerAddr config = "" ->
     (newRawConsumer config).2 = fmt_Errorf "DopplerAddr must not be empty") /\
  (DopplerAddr config <> "" -> Token config = "" ->
     (newRawConsumer config).2 = fmt_Errorf "Token must not be empty") /\
  (forall config',
     DopplerAddr config' = DopplerAddr config ->
     Token config' = Token config ->
     SubscriptionID config' = SubscriptionID config ->
     (newRawConsumer config').2 = (newRawConsumer config).2).
Proof.
  split; [|split; [|split; [|split]]].
  - unfold newRawConsumer. destruct (validate _); cbn; split; done.
  - unfold newRawConsumer, validate. cbn.
    destruct (String.eqb_spec (DopplerAddr config) "");
      [cbn; split; [done|tauto]|].
    destruct (String.eqb_spec (Token config) "");
      [cbn; split; [done|tauto]|].
    destruct (String.eqb_spec (SubscriptionID config) "");
      cbn; split; try done; tauto.
  - intros Hd. unfold newRawConsumer, validate. cbn. by rewrite Hd.
  - intros Hd Ht. unfold newRawConsumer, validate. cbn. rewrite Ht.
    by destruct (String.eqb_spec (DopplerAddr config) "").
  - intros config' Hd Ht Hs. unfold newRawConsumer, validate. cbn.
    rewrite Hd, Ht, Hs.
    destruct (String.eqb _ _); [done|].
    destruct (String.eqb _ _); [done|].
    by destruct (String.eqb _ _).
Qed.

